(** * hloc/extract_features.py: feature extraction with a resumable store

    A shallow embedding of [ImageDataset] and [main] of
    [src/hloc/extract_features.py].  Python objects become Rocq data:
    a [pathlib.Path] is its sequence of components, a [dict] is a [gmap],
    a numpy array carries its dtype, its shape and its elements (IEEE 754
    values of the Standard Library's [SpecFloat]), and the side effects of
    a run (directories, HDF5 files, backend calls) are threaded through an
    exception-and-state monad. *)

From Stdlib Require Import Rbase Rbasic_fun Rfunctions Lra.
From Stdlib Require Import ZArith List Bool Lia Ascii.
From Stdlib Require Import Floats.SpecFloat.
From stdpp Require Import gmap strings list sorting.

Local Open Scope string_scope.
Local Open Scope list_scope.
Local Open Scope Z_scope.

(** ** Paths *)

(** A [pathlib.Path] is compared, hashed and joined through its tuple of
    components ([Path.parts]); the embedding keeps exactly that tuple. *)
Abbreviation path := (list string).

(** [Path.as_posix()]: the components joined by a forward slash. *)
Definition as_posix (p : path) : string := String.concat "/" p.

(** [Path.parent]: the path without its last component. *)
Definition parent (p : path) : path := removelast p.

(** [Path.relative_to(root)]: strips the components of [root], and raises
    [ValueError] (here [None]) when [root] is not a prefix. *)
Fixpoint relative_to (root p : path) : option path :=
  match root, p with
  | [], _ => Some p
  | r :: root', x :: p' => if decide (r = x) then relative_to root' p' else None
  | _ :: _, [] => None
  end.

(** *** The order of [sorted] on paths

    Python compares two [str] by code point and two [Path] by comparing
    their component lists, which is the lexicographic order of lists. *)
Fixpoint lex_compare {A : Type} (cmp : A → A → comparison) (l k : list A) : comparison :=
  match l, k with
  | [], [] => Eq
  | [], _ :: _ => Lt
  | _ :: _, [] => Gt
  | a :: l', b :: k' =>
      match cmp a b with
      | Eq => lex_compare cmp l' k'
      | c => c
      end
  end.

Definition path_compare : path → path → comparison := lex_compare String.compare.

Definition path_le (p q : path) : Prop := path_compare p q ≠ Gt.

Global Instance path_le_dec : RelDecision path_le :=
  λ p q, not_dec (decide (path_compare p q = Gt)).

(** Python's [sorted]: a stable merge sort under [<]. *)
Definition sorted (l : list path) : list path := merge_sort path_le l.

(** [list(set(paths))]: the distinct elements; the iteration order of a
    Python set is unspecified, and [sorted] makes the result independent
    of it (lemma [sorted_order_irrelevant] below). *)
Definition list_set (l : list path) : list path := remove_dups l.

(** ** Exceptions and results *)

(** The exceptions a run can raise, named after their Python class and
    the place that raises them. *)
Inductive exn : Type :=
| ValueError_no_image (root : path)
    (* 'Could not find any image in root: {root}.' *)
| ValueError_unknown_format
    (* 'Unknown format for path argument {paths}.' *)
| ValueError_missing_image (name : string) (root : path)
    (* 'Image {name} does not exists in root: {root}.' *)
| ValueError_relative_to (p root : path)
    (* Path.relative_to: p is not in the subpath of root *)
| ValueError_unpack
    (* w, h = size on an array with fewer than two axes *)
| ValueError_transpose
    (* ndarray.transpose((2, 0, 1)) on an array that is not 3-D *)
| ValueError_round
    (* round() of a NaN *)
| ValueError_broadcast
    (* numpy: operands could not be broadcast together *)
| ValueError_group_exists (name : string)
    (* h5py create_group: name already exists *)
| KeyError (key : string)
| IndexError
| TypeError
| ZeroDivisionError
| OverflowError
| cv2_error
| OSError (p : path)
| External (what : string).
    (* raised inside a helper or a backend that is not part of this file *)

Inductive result (A : Type) : Type :=
| Ok (a : A)
| Raise (e : exn).
Arguments Ok {A} a.
Arguments Raise {A} e.

Global Instance result_ret : MRet result := λ A, Ok.
Global Instance result_bind : MBind result := λ A B f r,
  match r with Ok a => f a | Raise e => Raise e end.
Global Instance result_fmap : FMap result := λ A B f r,
  match r with Ok a => Ok (f a) | Raise e => Raise e end.

Definition is_Ok {A} (r : result A) : Prop := ∃ a, r = Ok a.

(** [[f(x) for x in l]] where [f] may raise: stops at the first exception. *)
Fixpoint comprehension {A B} (f : A → result B) (l : list A) : result (list B) :=
  match l with
  | [] => Ok []
  | x :: l' => y ← f x; ys ← comprehension f l'; Ok (y :: ys)
  end.

(** ** numpy arrays and IEEE 754 arithmetic *)

(** The floating-point dtypes, with the precision and the exponent bound
    of their binary interchange format. *)
Inductive fdtype : Type := float16 | float32 | float64.

Global Instance fdtype_eq_dec : EqDecision fdtype.
Proof. solve_decision. Defined.

Definition fprec (t : fdtype) : Z :=
  match t with float16 => 11 | float32 => 24 | float64 => 53 end.
Definition femax (t : fdtype) : Z :=
  match t with float16 => 16 | float32 => 128 | float64 => 1024 end.

(** An array is its dtype, its shape and its elements in row-major order;
    integer arrays are [int64] (no run reaches its bounds: the only
    integers here are image sizes). *)
Inductive ndarray : Type :=
| FloatArray (t : fdtype) (shape : list nat) (elems : list spec_float)
| IntArray (shape : list nat) (elems : list Z).

Inductive dtype : Type := Float (t : fdtype) | Int64.

Global Instance dtype_eq_dec : EqDecision dtype.
Proof. solve_decision. Defined.

Definition dtype_of (a : ndarray) : dtype :=
  match a with
  | FloatArray t _ _ => Float t
  | IntArray _ _ => Int64
  end.

Definition shape_of (a : ndarray) : list nat :=
  match a with
  | FloatArray _ sh _ => sh
  | IntArray sh _ => sh
  end.

(** Arithmetic of one format, correctly rounded to nearest even. *)
Definition fadd (t : fdtype) : spec_float → spec_float → spec_float := SFadd (fprec t) (femax t).
Definition fsub (t : fdtype) : spec_float → spec_float → spec_float := SFsub (fprec t) (femax t).
Definition fmul (t : fdtype) : spec_float → spec_float → spec_float := SFmul (fprec t) (femax t).
Definition fdiv (t : fdtype) : spec_float → spec_float → spec_float := SFdiv (fprec t) (femax t).

(** The value [m * 2^e] rounded into format [t]: integer-to-float
    conversion and float literals. *)
Definition of_Z_exp (t : fdtype) (m e : Z) : spec_float :=
  binary_normalize (fprec t) (femax t) m e false.
Definition of_int (t : fdtype) (z : Z) : spec_float := of_Z_exp t z 0.

(** The Python literal [.5] in format [t]. *)
Definition half (t : fdtype) : spec_float := of_Z_exp t 1 (-1).

(** Conversion of a float to format [t] (rounds when [t] is narrower). *)
Definition convert (t : fdtype) (x : spec_float) : spec_float :=
  match x with
  | S754_finite s m e => binary_round (fprec t) (femax t) s m e
  | _ => x
  end.

(** Conversion between two formats; nothing changes within one format. *)
Definition convert_from (src dst : fdtype) (x : spec_float) : spec_float :=
  if decide (src = dst) then x else convert dst x.

(** [a.astype(t)] *)
Definition astype (t : fdtype) (a : ndarray) : ndarray :=
  match a with
  | FloatArray u sh xs => FloatArray t sh (convert_from u t <$> xs)
  | IntArray sh zs => FloatArray t sh (of_int t <$> zs)
  end.

(** numpy's result type of an operation on two float arrays. *)
Definition promote (t u : fdtype) : fdtype :=
  match t, u with
  | float64, _ | _, float64 => float64
  | float32, _ | _, float32 => float32
  | float16, float16 => float16
  end.

(** [a + .5] and [a - .5]: a Python float does not widen a float array;
    an integer array becomes [float64]. *)
Definition add_half (a : ndarray) : ndarray :=
  match a with
  | FloatArray t sh xs => FloatArray t sh ((λ x, fadd t x (half t)) <$> xs)
  | IntArray sh zs => FloatArray float64 sh ((λ z, fadd float64 (of_int float64 z) (half float64)) <$> zs)
  end.

Definition sub_half (a : ndarray) : ndarray :=
  match a with
  | FloatArray t sh xs => FloatArray t sh ((λ x, fsub t x (half t)) <$> xs)
  | IntArray sh zs => FloatArray float64 sh ((λ z, fsub float64 (of_int float64 z) (half float64)) <$> zs)
  end.

(** Elements of rows of length two, each multiplied by the scale of its
    column. *)
Fixpoint scale_columns (t : fdtype) (sx sy : spec_float) (xs : list spec_float) : list spec_float :=
  match xs with
  | x :: y :: xs' => fmul t x sx :: fmul t y sy :: scale_columns t sx sy xs'
  | [x] => [fmul t x sx]
  | [] => []
  end.

(** [a * scales[None]] for a [float32] array [scales] of shape [(2,)]:
    numpy broadcasts the shape of [a] against [(1, 2)], so the last axis
    of [a] must have length 2 (kept) or 1 (stretched to 2), a 0-D or 1-D
    [a] gains a leading axis, and any other shape raises [ValueError]. *)
Definition mul_scales (a : ndarray) (sx sy : spec_float) : result ndarray :=
  let rt := match a with FloatArray t _ _ => promote t float32 | IntArray _ _ => float64 end in
  let xs := match astype rt a with FloatArray _ _ xs => xs | IntArray _ _ => [] end in
  let sx := convert_from float32 rt sx in
  let sy := convert_from float32 rt sy in
  match rev (shape_of a) with
  | [] => Ok (FloatArray rt [1; 2]%nat (flat_map (λ x, [fmul rt x sx; fmul rt x sy]) xs))
  | [2%nat] => Ok (FloatArray rt [1; 2]%nat (scale_columns rt sx sy xs))
  | [1%nat] => Ok (FloatArray rt [1; 2]%nat (flat_map (λ x, [fmul rt x sx; fmul rt x sy]) xs))
  | 2%nat :: _ => Ok (FloatArray rt (shape_of a) (scale_columns rt sx sy xs))
  | 1%nat :: outer => Ok (FloatArray rt (rev (2%nat :: outer)) (flat_map (λ x, [fmul rt x sx; fmul rt x sy]) xs))
  | _ => Raise ValueError_broadcast
  end.

(** ** Python's [round] *)

(** The integer nearest to [m * 2^e] for [m > 0], ties going to the even
    one. *)
Definition round_half_even (m e : Z) : Z :=
  if decide (0 ≤ e) then m * 2 ^ e
  else
    let d := 2 ^ (- e) in
    let q := m `div` d in
    let r := m `mod` d in
    match 2 * r ?= d with
    | Lt => q
    | Gt => q + 1
    | Eq => if Z.even q then q else q + 1
    end.

(** [round(x)] of a Python float: [ValueError] on a NaN, [OverflowError]
    on an infinity. *)
Definition py_round (x : spec_float) : result Z :=
  match x with
  | S754_zero _ => Ok 0
  | S754_finite s m e => Ok (cond_Zopp s (round_half_even (Z.pos m) e))
  | S754_nan => Raise ValueError_round
  | S754_infinity _ => Raise OverflowError
  end.

(** [a / b] of two Python ints: [ZeroDivisionError] when [b = 0],
    otherwise the [float] nearest to the quotient; for operands below
    [2^53] in magnitude, as image sizes are, that is the IEEE 754 quotient
    of the two converted operands. *)
Definition int_truediv (a b : Z) : result spec_float :=
  if decide (b = 0) then Raise ZeroDivisionError
  else Ok (fdiv float64 (of_int float64 a) (of_int float64 b)).

(** [h * scale] of a Python int and a float. *)
Definition int_mul_float (h : Z) (scale : spec_float) : spec_float :=
  fmul float64 (of_int float64 h) scale.

(** ** Configurations *)

Inductive pyval : Type := PyBool (b : bool) | PyInt (z : Z) | PyStr (s : string).

(** The dictionary under ['preprocessing']: every key is optional, and
    ['resize_max'] may be present with the value [None]. *)
Record preprocessing_dict : Type := {
  d_globs : option (list string);
  d_grayscale : option bool;
  d_resize_max : option (option Z);
  d_resize_force : option bool;
}.

Record model_dict : Type := {
  name : string;
  params : list (string * pyval);
}.

Record conf_dict : Type := {
  output : string;
  model : model_dict;
  preprocessing : preprocessing_dict;
}.

Definition preprocessing_of (gray : option bool) (rmax : option (option Z)) (force : option bool) : preprocessing_dict :=
  {| d_globs := None; d_grayscale := gray; d_resize_max := rmax; d_resize_force := force |}.

(** The standard configurations, selected by name on the command line. *)
Definition confs : list (string * conf_dict) := [
  ("superpoint_aachen",
   {| output := "feats-superpoint-n4096-r1024";
      model := {| name := "superpoint";
                  params := [("nms_radius", PyInt 3); ("max_keypoints", PyInt 4096)] |};
      preprocessing := preprocessing_of (Some true) (Some (Some 1024)) None |});
  ("superpoint_max",
   {| output := "feats-superpoint-n4096-rmax1600";
      model := {| name := "superpoint";
                  params := [("nms_radius", PyInt 3); ("max_keypoints", PyInt 4096)] |};
      preprocessing := preprocessing_of (Some true) (Some (Some 1600)) (Some true) |});
  ("superpoint_inloc",
   {| output := "feats-superpoint-n4096-r1600";
      model := {| name := "superpoint";
                  params := [("nms_radius", PyInt 4); ("max_keypoints", PyInt 4096)] |};
      preprocessing := preprocessing_of (Some true) (Some (Some 1600)) None |});
  ("d2net-ss",
   {| output := "feats-d2net-ss";
      model := {| name := "d2net"; params := [("multiscale", PyBool false)] |};
      preprocessing := preprocessing_of (Some false) (Some (Some 1600)) None |});
  ("dir",
   {| output := "global-feats-dir";
      model := {| name := "dir"; params := [] |};
      preprocessing := preprocessing_of None (Some None) None |})
].

(** [ImageDataset.conf]: the namespace built from the merged dictionary. *)
Record namespace : Type := {
  globs : list string;
  grayscale : bool;
  resize_max : option Z;
  resize_force : bool;
}.

Definition default_conf : namespace := {|
  globs := ["*.jpg"; "*.png"; "*.jpeg"; "*.JPG"; "*.PNG"];
  grayscale := false;
  resize_max := None;
  resize_force := false;
|}.

(** The namespace of [default_conf] updated with the entries of [conf]. *)
Definition SimpleNamespace (conf : preprocessing_dict) : namespace := {|
  globs := default (globs default_conf) (d_globs conf);
  grayscale := default (grayscale default_conf) (d_grayscale conf);
  resize_max := default (resize_max default_conf) (d_resize_max conf);
  resize_force := default (resize_force default_conf) (d_resize_force conf);
|}.

(** ** The image tree, the helpers and the backends outside this file *)

(** An element of an explicit list: a [Path] or a [str]. *)
Inductive path_or_str : Type := A_Path (p : path) | A_str (s : string).

(** The [paths] argument of [ImageDataset]: [None], the [Path] or [str]
    of a list file, an iterable of names, or any other object. *)
Inductive paths_arg : Type :=
| paths_None
| paths_file (f : path_or_str)
| paths_iterable (l : list path_or_str)
| paths_other.

(** A decoded image: the lengths of its first two axes.  Its channel
    axis is fixed by the [grayscale] flag it was read with (none when
    grayscale, three channels otherwise); pixel values are never
    inspected by this file. *)
Record image : Type := { height : Z; width : Z }.

(** One element of the dataset: its name, the shape (C, H, W) of its
    preprocessed image and its original size (width, height). *)
Record data : Type := {
  data_name : string;
  data_image : Z * Z * Z;
  data_original_size : Z * Z;
}.

Abbreviation prediction := (gmap string ndarray).

(** What the run reads from outside this file.  The image tree is only
    read: [glob root pattern] lists the matches of
    [Path(root).glob(pattern)] relative to [root], in the order the file
    system yields them, [path_exists root name] is
    [(root / name).exists()], and [read_image], [parse_image_lists] and
    [dynamic_load] are the helpers of [hloc.utils]; a loaded model maps
    one element of the dataset to its named outputs, or raises. *)
Record environment : Type := {
  glob : path → string → list path;
  path_exists : path → string → bool;
  parse_image_lists : path_or_str → result (list string);
  read_image : path → string → bool → result image;
  dynamic_load : string → result (model_dict → result (data → result prediction));
}.

(** ** ImageDataset *)

Record ImageDataset : Type := {
  self_conf : namespace;
  self_root : path;
  self_names : list string;
}.

(** [i.relative_to(root).as_posix()] *)
Definition relative_posix (root i : path) : result string :=
  match relative_to root i with
  | Some rel => Ok (as_posix rel)
  | None => Raise (ValueError_relative_to i root)
  end.

(** The loop over [self.names] that raises at the first missing file. *)
Fixpoint check_exists (E : environment) (root : path) (names : list string) : result unit :=
  match names with
  | [] => Ok tt
  | name :: names' =>
      if path_exists E root name then check_exists E root names'
      else Raise (ValueError_missing_image name root)
  end.

(** [ImageDataset.__init__] *)
Definition ImageDataset_init (E : environment) (root : path) (conf : preprocessing_dict)
    (paths : paths_arg) : result ImageDataset :=
  let conf := SimpleNamespace conf in
  match paths with
  | paths_None =>
      let paths := flat_map (λ g, (λ rel, root ++ rel) <$> glob E root ("**/" +:+ g)) (globs conf) in
      if decide (length paths = 0%nat) then Raise (ValueError_no_image root)
      else
        let paths := sorted (list_set paths) in
        names ← comprehension (relative_posix root) paths;
        Ok {| self_conf := conf; self_root := root; self_names := names |}
  | _ =>
      names ← match paths with
              | paths_file f => parse_image_lists E f
              | paths_iterable l =>
                  Ok ((λ p, match p with A_Path p => as_posix p | A_str s => s end) <$> l)
              | _ => Raise ValueError_unknown_format
              end;
      check_exists E root names;;
      Ok {| self_conf := conf; self_root := root; self_names := names |}
  end.

(** The test of line 132: [resize_max] is falsy when [None] or [0]. *)
Definition resize_condition (conf : namespace) (w h : Z) : bool :=
  match resize_max conf with
  | None => false
  | Some r => if decide (r = 0) then false
              else resize_force conf || bool_decide (Z.max w h > r)
  end.

(** Lines 134-135: the target size [(h_new, w_new)]. *)
Definition new_size (r w h : Z) : result (Z * Z) :=
  scale ← int_truediv r (Z.max h w);
  h_new ← py_round (int_mul_float h scale);
  w_new ← py_round (int_mul_float w scale);
  Ok (h_new, w_new).

(** [cv2.resize(image, (w_new, h_new))]: OpenCV rejects an empty target
    size. *)
Definition cv2_resize (img : image) (w_new h_new : Z) : result image :=
  if decide (0 < w_new ∧ 0 < h_new) then Ok {| height := h_new; width := w_new |}
  else Raise cv2_error.

(** Lines 132-137: the image is resampled when [resize_condition] holds. *)
Definition resize (conf : namespace) (img : image) : result image :=
  let '(w, h) := (width img, height img) in
  match resize_max conf with
  | Some r =>
      if resize_condition conf w h then
        '(h_new, w_new) ← new_size r w h;
        cv2_resize img w_new h_new
      else Ok img
  | None => Ok img
  end.

(** Lines 127-150: the element of name [name]. *)
Definition load (E : environment) (self : ImageDataset) (name : string) : result data :=
  img ← read_image E (self_root self) name (grayscale (self_conf self));
  let size := (width img, height img) in
  img ← resize (self_conf self) img;
  let shape := if grayscale (self_conf self) then (1, height img, width img)
               else (3, height img, width img) in
  Ok {| data_name := name; data_image := shape; data_original_size := size |}.

(** [ImageDataset.__getitem__] *)
Definition getitem (E : environment) (self : ImageDataset) (idx : nat) : result data :=
  match self_names self !! idx with
  | Some name => load E self name
  | None => Raise IndexError
  end.

(** [ImageDataset.__len__] *)
Definition len (self : ImageDataset) : nat := length (self_names self).

(** Iterating over [DataLoader(dataset, num_workers=1)]: the elements in
    index order, each raising when it is reached if its loading raised. *)
Definition DataLoader (E : environment) (self : ImageDataset) : list (result data) :=
  getitem E self <$> seq 0 (len self).

(** ** The export tree and the effects of a run *)

Abbreviation group := (gmap string ndarray).

(** An HDF5 feature file: its named groups, each holding named datasets. *)
Abbreviation h5file := (gmap string group).

(** The export tree: the directories that exist and the feature files. *)
Record world : Type := {
  dirs : gset path;
  files : gmap path h5file;
}.

(** The effects of a run on what lies outside the process, in order. *)
Inductive event : Type :=
| Mkdir (p : path)
| ListNames (p : path)
| LoadModel (model_name : string)
| Forward (image_name : string)
| CreateGroup (p : path) (image_name : string).

Global Instance event_eq_dec : EqDecision event.
Proof. solve_decision. Defined.

(** What a computation leaves behind: what it returned or raised, the
    export tree it reached and the effects it had. *)
Record outcome (A : Type) : Type := {
  returned : result A;
  final : world;
  trace : list event;
}.
Arguments returned {A} o.
Arguments final {A} o.
Arguments trace {A} o.
Arguments Build_outcome {A} returned final trace.

(** A computation that may raise and that changes the export tree; the
    effects that precede an exception are kept. *)
Definition run (A : Type) : Type := world → outcome A.

Global Instance run_ret : MRet run := λ A a w, Build_outcome (Ok a) w [].
Global Instance run_bind : MBind run := λ A B f m w,
  let o := m w in
  match returned o with
  | Ok a => let o' := f a (final o) in
            Build_outcome (returned o') (final o') (trace o ++ trace o')
  | Raise e => Build_outcome (Raise e) (final o) (trace o)
  end.

Definition lift {A} (r : result A) : run A := λ w, Build_outcome r w [].
Definition raise {A} (e : exn) : run A := lift (Raise e).
Definition get_world : run world := λ w, Build_outcome (Ok w) w [].
Definition put_world (w : world) : run unit := λ _, Build_outcome (Ok tt) w [].
Definition emit (ev : event) : run unit := λ w, Build_outcome (Ok tt) w [ev].

(** The directories named by a path: its non-empty prefixes. *)
Definition ancestors (p : path) : list path := (λ n, take n p) <$> seq 1 (length p).

(** [p.mkdir(exist_ok=True, parents=True)]: creates the missing
    directories of [p]; raises when [p] or one of its ancestors is a
    file. *)
Definition mkdir (p : path) : run unit :=
  w ← get_world;
  if decide (Exists (λ a, is_Some (files w !! a)) (ancestors p)) then raise (OSError p)
  else
    put_world {| dirs := dirs w ∪ list_to_set (ancestors p); files := files w |};;
    emit (Mkdir p).

(** [p.exists()] in the export tree; the empty path is the current
    directory. *)
Definition exists_ (p : path) : run bool :=
  w ← get_world;
  mret (bool_decide (is_Some (files w !! p) ∨ p ∈ dirs w ∨ p = [])).

(** Modelled from the spec: [list_h5_names] of [hloc.utils.io], which is
    not part of this file; FeatureStore.list_keys enumerates the group
    names currently persisted.  Opening a path that is not a feature file
    raises. *)
Definition list_h5_names (p : path) : run (gset string) :=
  w ← get_world;
  match files w !! p with
  | Some fd => emit (ListNames p);; mret (dom fd)
  | None => raise (OSError p)
  end.

(** Lines 198-201: [h5py.File(str(feature_path), 'a')] opens the file,
    creating it when absent, [create_group] raises when the name exists,
    and every entry of [pred] becomes a dataset of the new group. *)
Definition append (feature_path : path) (name : string) (pred : prediction) : run unit :=
  w ← get_world;
  fd ← match files w !! feature_path with
       | Some fd => mret fd
       | None =>
           if decide (feature_path ∈ dirs w ∨ feature_path = []) then raise (OSError feature_path)
           else put_world {| dirs := dirs w; files := <[feature_path := ∅]> (files w) |};; mret ∅
       end;
  if decide (is_Some (fd !! name)) then raise (ValueError_group_exists name)
  else
    w ← get_world;
    put_world {| dirs := dirs w; files := <[feature_path := <[name := pred]> fd]> (files w) |};;
    emit (CreateGroup feature_path name).

(** ** main *)

(** Line 189: [(original_size / size).astype(np.float32)]; the quotient
    of two integer arrays is computed in [float64]. *)
Definition scale_of (original processed : Z) : spec_float :=
  convert float32 (fdiv float64 (of_int float64 original) (of_int float64 processed)).

(** Line 190 *)
Definition rescale_keypoints (keypoints : ndarray) (scales : spec_float * spec_float) : result ndarray :=
  sub_half <$> mul_scales (add_half keypoints) scales.1 scales.2.

(** Lines 186-190 *)
Definition rescale (d : data) (pred : prediction) : result prediction :=
  let original_size := data_original_size d in
  let pred := <["image_size" := IntArray [2%nat] [original_size.1; original_size.2]]> pred in
  match pred !! "keypoints" with
  | Some keypoints =>
      let '(_, h, w) := data_image d in
      let size := (w, h) in
      let scales := (scale_of original_size.1 size.1, scale_of original_size.2 size.2) in
      keypoints ← rescale_keypoints keypoints scales;
      Ok (<["keypoints" := keypoints]> pred)
  | None => Ok pred
  end.

(** Lines 192-196 *)
Definition downcast (as_half : bool) (pred : prediction) : prediction :=
  if as_half then
    (λ v, let dt := dtype_of v in
          if decide (dt = Float float32 ∧ dt ≠ Float float16) then astype float16 v else v) <$> pred
  else pred.

(** One call of the model (line 183); the call is an effect even when it
    raises. *)
Definition forward (backend : data → result prediction) (d : data) : run prediction :=
  emit (Forward (data_name d));; lift (backend d).

(** The body of the loop, lines 179-203. *)
Definition step (backend : data → result prediction) (feature_path : path) (as_half : bool)
    (skip_names : gset string) (d : data) : run unit :=
  let name := data_name d in
  if decide (name ∈ skip_names) then mret tt
  else
    pred ← forward backend d;
    pred ← lift (rescale d pred);
    let pred := downcast as_half pred in
    append feature_path name pred.

(** The loop of line 178 over the elements the loader yields. *)
Fixpoint loop (backend : data → result prediction) (feature_path : path) (as_half : bool)
    (skip_names : gset string) (loader : list (result data)) : run unit :=
  match loader with
  | [] => mret tt
  | item :: loader' =>
      d ← lift item;
      step backend feature_path as_half skip_names d;;
      loop backend feature_path as_half skip_names loader'
  end.

(** [Path(export_dir, conf['output']+'.h5')]; [export_dir] defaults to
    [None], which [Path] rejects.  The output name of every
    configuration is a single path component. *)
Definition default_feature_path (export_dir : option path) (conf : conf_dict) : result path :=
  match export_dir with
  | Some d => Ok (d ++ [output conf +:+ ".h5"])
  | None => Raise TypeError
  end.

(** Lines 168-169: the names already in the feature file. *)
Definition read_skip_names (feature_path : path) : run (gset string) :=
  present ← exists_ feature_path;
  if present : bool then list_h5_names feature_path else mret ∅.

(** Lines 174-176: the model named by the configuration, loaded on the
    available device. *)
Definition load_model (E : environment) (conf : conf_dict) : run (data → result prediction) :=
  Model ← lift (dynamic_load E (name (model conf)));
  backend ← lift (Model (model conf));
  emit (LoadModel (name (model conf)));;
  mret backend.

(** Lines 167-206, with the loader cut by [upto] before the loop. *)
Definition extraction (upto : list (result data) → list (result data)) (E : environment)
    (conf : conf_dict) (as_half : bool) (loader : ImageDataset) (feature_path : path) : run path :=
  mkdir (parent feature_path);;
  skip_names ← read_skip_names feature_path;
  if decide (list_to_set (self_names loader) ⊆ skip_names) then mret feature_path
  else
    backend ← load_model E conf;
    loop backend feature_path as_half skip_names (upto (DataLoader E loader));;
    mret feature_path.

(** [main], with the loader cut by [upto] before the loop: [main] itself
    takes the whole loader, and a run killed after [n] iterations of the
    loop is the one that takes the first [n] elements. *)
Definition main_upto (upto : list (result data) → list (result data)) (E : environment)
    (conf : conf_dict) (image_dir : path) (export_dir : option path) (as_half : bool)
    (image_list : paths_arg) (feature_path : option path) : run path :=
  loader ← lift (ImageDataset_init E image_dir (preprocessing conf) image_list);
  feature_path ← match feature_path with
                 | None => lift (default_feature_path export_dir conf)
                 | Some p => mret p
                 end;
  extraction upto E conf as_half loader feature_path.

Definition main : environment → conf_dict → path → option path → bool → paths_arg →
    option path → run path :=
  main_upto id.

(** [main] when the process is killed after [n] iterations of the loop. *)
Definition main_killed_after (n : nat) : environment → conf_dict → path → option path → bool →
    paths_arg → option path → run path :=
  main_upto (take n).

(** The names on which the model was called, in order. *)
Definition forward_calls (tr : list event) : list string :=
  omap (λ ev, match ev with Forward n => Some n | _ => None end) tr.

(** The backends that were loaded, in order. *)
Definition loaded_models (tr : list event) : list string :=
  omap (λ ev, match ev with LoadModel m => Some m | _ => None end) tr.

(** ** Notions used to state the properties *)

(** The matches of all the glob patterns of a configuration, relative to
    the root (line 105). *)
Definition matches (E : environment) (root : path) (conf : namespace) : list path :=
  flat_map (λ g, glob E root ("**/" +:+ g)) (globs conf).

(** A string without a slash, as every component of a path is. *)
Fixpoint slash_free (s : string) : Prop :=
  match s with
  | EmptyString => True
  | String c s' => c ≠ "/"%char ∧ slash_free s'
  end.

(** A relative path as a file system yields it: at least one component,
    and no slash inside a component. *)
Definition relative_path (p : path) : Prop := p ≠ [] ∧ Forall slash_free p.

(** The name an element of an explicit list stands for (line 115). *)
Definition name_of (p : path_or_str) : string :=
  match p with A_Path p => as_posix p | A_str s => s end.

(** The group names of the feature file at [p] (none when it is absent). *)
Definition keys (w : world) (p : path) : gset string :=
  match files w !! p with Some fd => dom fd | None => ∅ end.

(** The group stored under [name] in the feature file at [p]. *)
Definition stored (w : world) (p : path) (name : string) : option group :=
  fd ← files w !! p; fd !! name.

(** The export tree after a new group [g] was written under [name] in
    the feature file at [p]. *)
Definition write_group (w : world) (p : path) (name : string) (g : group) : world :=
  {| dirs := dirs w;
     files := <[p := <[name := g]> (default ∅ (files w !! p))]> (files w) |}.

(** The export tree after the directories of [p] were created. *)
Definition with_dirs (w : world) (p : path) : world :=
  {| dirs := dirs w ∪ list_to_set (ancestors p); files := files w |}.

(** The group that [step] writes for an element: the output of the
    model after lines 186-196. *)
Definition processed (backend : data → result prediction) (as_half : bool) (d : data) : result group :=
  pred ← backend d; downcast as_half <$> rescale d pred.

(** The names of the elements a loader yields. *)
Definition names_of (loader : list (result data)) : list string :=
  omap (λ item, match item with Ok d => Some (data_name d) | Raise _ => None end) loader.

(** [w'] extends [w] at the feature file [p]: same directories, same
    other files, and every group of [w] is still there, unchanged. *)
Definition extends (p : path) (w w' : world) : Prop :=
  dirs w' = dirs w ∧
  (∀ q, q ≠ p → files w' !! q = files w !! q) ∧
  (is_Some (files w !! p) → is_Some (files w' !! p)) ∧
  (∀ q n g, stored w q n = Some g → stored w' q n = Some g).

(** The effects of writing the groups of the names [l], in order. *)
Definition writes (p : path) (l : list string) : list event :=
  flat_map (λ n, [Forward n; CreateGroup p n]) l.

(** The feature path a run writes to (lines 165-166). *)
Definition the_feature_path (feature_path export_dir : option path) (conf : conf_dict) : result path :=
  match feature_path with
  | Some p => Ok p
  | None => default_feature_path export_dir conf
  end.

(** The model a run loads (lines 175-176). *)
Definition the_backend (E : environment) (conf : conf_dict) : result (data → result prediction) :=
  Model ← dynamic_load E (name (model conf)); Model (model conf).

(** The effect of reading the names of the feature file at [p]. *)
Definition listing (w : world) (p : path) : list event :=
  match files w !! p with Some _ => [ListNames p] | None => [] end.

(** The export tree lets [p] be a feature file: it is one, or nothing is
    at [p]. *)
Definition writable (w : world) (p : path) : Prop :=
  is_Some (files w !! p) ∨ (p ∉ dirs w) ∧ p ≠ [].

(** ** An example: two images and a stub model

    The tree holds [a.jpg] (100 x 50) and [b.png] (50 x 100); the
    configuration asks for grayscale images of at most 80 pixels. *)

Definition example_root : path := ["datasets"; "images"].
Definition example_export : path := ["outputs"].

Definition example_keypoints : ndarray :=
  FloatArray float32 [2; 2]%nat
    [of_int float32 10; of_int float32 20; of_int float32 3; of_int float32 4].

Definition example_backend (d : data) : result prediction :=
  Ok (<["keypoints" := example_keypoints]>
      (<["scores" := FloatArray float32 [2]%nat [half float32; half float32]]> ∅)).

Definition example_env : environment := {|
  glob := λ root pattern,
    if decide (pattern = "**/*.jpg") then [["a.jpg"]]
    else if decide (pattern = "**/*.png") then [["b.png"]; ["b.png"]]
    else [];
  path_exists := λ root name, bool_decide (name ∈ ["a.jpg"; "b.png"]);
  parse_image_lists := λ f, Ok ["b.png"; "a.jpg"];
  read_image := λ root name gray,
    if decide (name = "a.jpg") then Ok {| height := 50; width := 100 |}
    else Ok {| height := 100; width := 50 |};
  dynamic_load := λ model_name, Ok (λ conf, Ok example_backend);
|}.

Definition example_conf : conf_dict := {|
  output := "feats-example";
  model := {| name := "superpoint"; params := [("max_keypoints", PyInt 2)] |};
  preprocessing := preprocessing_of (Some true) (Some (Some 80)) None;
|}.

Definition empty_world : world := {| dirs := ∅; files := ∅ |}.

(** An export tree whose feature file already holds both images. *)
Definition example_done : world := {|
  dirs := {[ ["outputs"] ]};
  files := {[ ["outputs"; "feats-example.h5"] :=
                {[ "a.jpg" := {[ "image_size" := IntArray [2%nat] [100; 50] ]};
                   "b.png" := {[ "image_size" := IntArray [2%nat] [50; 100] ]} ]} ]};
|}.



(** The example with a model that fails on [b.png]. *)
Definition flaky_backend (d : data) : result prediction :=
  if decide (data_name d = "b.png") then Raise (External "out of memory")
  else example_backend d.

Definition flaky_env : environment := {|
  glob := glob example_env;
  path_exists := path_exists example_env;
  parse_image_lists := parse_image_lists example_env;
  read_image := read_image example_env;
  dynamic_load := λ model_name, Ok (λ conf, Ok flaky_backend);
|}.

(** ** The command line (lines 209-219) *)

(** The options as given on the command line; [--as_half] is a flag. *)
Record argv : Type := {
  arg_image_dir : option path;
  arg_export_dir : option path;
  arg_conf : option string;
  arg_as_half : bool;
  arg_image_list : option path;
  arg_feature_path : option path;
}.

(** The namespace [parser.parse_args()] returns. *)
Record args : Type := {
  args_image_dir : path;
  args_export_dir : path;
  args_conf : string;
  args_as_half : bool;
  args_image_list : option path;
  args_feature_path : option path;
}.

(** [confs[key]] and [key in confs.keys()] *)
Definition confs_get (key : string) : option conf_dict :=
  match list_find (λ kv : string * conf_dict, kv.1 = key) confs with
  | Some (_, (_, conf)) => Some conf
  | None => None
  end.

(** [parser.parse_args()]: [--image_dir] and [--export_dir] are required,
    [--conf] defaults to ['superpoint_aachen'] and must be one of the
    keys of [confs]; otherwise argparse prints the usage and exits
    ([None]). *)
Definition parse_args (a : argv) : option args :=
  image_dir ← arg_image_dir a;
  export_dir ← arg_export_dir a;
  let conf := default "superpoint_aachen" (arg_conf a) in
  _ ← confs_get conf;
  Some {| args_image_dir := image_dir; args_export_dir := export_dir; args_conf := conf;
          args_as_half := arg_as_half a; args_image_list := arg_image_list a;
          args_feature_path := arg_feature_path a |}.

(** The script: [None] when argparse exits, otherwise the outcome of
    line 219, which calls [main] with four arguments, so that
    [image_list] and [feature_path] take their defaults. *)
Definition script (E : environment) (a : argv) (w : world) : option (outcome path) :=
  args ← parse_args a;
  conf ← confs_get (args_conf args);
  Some (main E conf (args_image_dir args) (Some (args_export_dir args)) (args_as_half args)
          paths_None None w).

(** ** The real value of a float *)

(** [2^e] and [m * 2^e] as real numbers: the value of the finite float
    of mantissa [m] and exponent [e]. *)
Definition bpow (e : Z) : R := powerRZ 2 e.
Definition F2R (m e : Z) : R := (IZR m * bpow e)%R.

(** * Properties *)

(** ** The path order is a total order *)

Section lex_order.
Context {A : Type} (cmp : A → A → comparison).
Hypothesis cmp_antisym : ∀ a b, cmp a b = CompOpp (cmp b a).
Hypothesis cmp_eq : ∀ a b, cmp a b = Eq → a = b.
Hypothesis cmp_trans : ∀ a b c, cmp a b = Lt → cmp b c = Lt → cmp a c = Lt.

Lemma cmp_refl a : cmp a a = Eq.
Proof. specialize (cmp_antisym a a). destruct (cmp a a); [done|discriminate..]. Qed.

Lemma lex_compare_antisym l k : lex_compare cmp l k = CompOpp (lex_compare cmp k l).
Proof.
  revert k. induction l as [|a l IH]; intros [|b k]; simpl; try done.
  rewrite (cmp_antisym b a). destruct (cmp a b); simpl; auto.
Qed.

Lemma lex_compare_eq l k : lex_compare cmp l k = Eq → l = k.
Proof.
  revert k. induction l as [|a l IH]; intros [|b k]; simpl; try done.
  destruct (cmp a b) eqn:Hab; try done.
  intros Hlk. apply cmp_eq in Hab. apply IH in Hlk. congruence.
Qed.

Lemma lex_compare_refl l : lex_compare cmp l l = Eq.
Proof. induction l as [|a l IH]; simpl; [done|]. by rewrite cmp_refl. Qed.

Lemma lex_compare_trans l k m :
  lex_compare cmp l k = Lt → lex_compare cmp k m = Lt → lex_compare cmp l m = Lt.
Proof.
  revert k m. induction l as [|a l IH]; intros [|b k] [|c m]; simpl; try done.
  destruct (cmp a b) eqn:Hab; try done.
  - apply cmp_eq in Hab as ->. destruct (cmp b c); try done. apply IH.
  - destruct (cmp b c) eqn:Hbc; try done.
    + apply cmp_eq in Hbc as <-. by rewrite Hab.
    + by rewrite (cmp_trans _ _ _ Hab Hbc).
Qed.

Lemma lex_compare_app_prefix r l k :
  lex_compare cmp (r ++ l) (r ++ k) = lex_compare cmp l k.
Proof. induction r as [|a r IH]; simpl; [done|]. by rewrite cmp_refl. Qed.
End lex_order.

Lemma ascii_compare_trans a b c :
  Ascii.compare a b = Lt → Ascii.compare b c = Lt → Ascii.compare a c = Lt.
Proof.
  unfold Ascii.compare. rewrite !N.compare_lt_iff. apply N.lt_trans.
Qed.

Lemma string_compare_lex s t :
  String.compare s t = lex_compare Ascii.compare (String.list_ascii_of_string s) (String.list_ascii_of_string t).
Proof.
  revert t. induction s as [|a s IH]; intros [|b t]; simpl; try done.
  rewrite IH. by destruct (Ascii.compare a b).
Qed.

Lemma string_compare_trans s t u :
  String.compare s t = Lt → String.compare t u = Lt → String.compare s u = Lt.
Proof.
  rewrite !string_compare_lex.
  apply lex_compare_trans; [exact Ascii.compare_eq_iff | exact ascii_compare_trans].
Qed.

Lemma path_compare_antisym p q : path_compare p q = CompOpp (path_compare q p).
Proof. apply lex_compare_antisym, String.compare_antisym. Qed.

Lemma path_compare_eq p q : path_compare p q = Eq → p = q.
Proof. apply lex_compare_eq, String.compare_eq_iff. Qed.

Lemma path_compare_trans p q r :
  path_compare p q = Lt → path_compare q r = Lt → path_compare p r = Lt.
Proof.
  apply lex_compare_trans; [exact String.compare_eq_iff | exact string_compare_trans].
Qed.

Lemma path_compare_app_prefix root p q :
  path_compare (root ++ p) (root ++ q) = path_compare p q.
Proof. apply lex_compare_app_prefix, String.compare_antisym. Qed.

Global Instance path_le_total : Total path_le.
Proof.
  intros p q. unfold path_le. rewrite (path_compare_antisym q p).
  destruct (path_compare p q); simpl; auto.
Qed.

Global Instance path_le_trans : Transitive path_le.
Proof.
  intros p q r. unfold path_le. intros Hpq Hqr.
  destruct (path_compare p q) eqn:E1; [|clear Hpq|done].
  - by apply path_compare_eq in E1 as ->.
  - destruct (path_compare q r) eqn:E2; [|clear Hqr|done].
    + apply path_compare_eq in E2 as <-. by rewrite E1.
    + by rewrite (path_compare_trans _ _ _ E1 E2).
Qed.

Global Instance path_le_antisym : AntiSymm (=) path_le.
Proof.
  intros p q. unfold path_le. rewrite (path_compare_antisym q p).
  destruct (path_compare p q) eqn:E1; simpl; try done.
  intros _ _. by apply path_compare_eq.
Qed.

(** ** [sorted(list(set(paths)))] *)

Lemma sorted_StronglySorted l : StronglySorted path_le (sorted l).
Proof. apply StronglySorted_merge_sort; apply _. Qed.

Lemma sorted_Permutation l : sorted l ≡ₚ l.
Proof. apply merge_sort_Permutation. Qed.

(** The result of [sorted] does not depend on the order of its input, so
    the iteration order of the set does not matter. *)
Lemma sorted_order_irrelevant l k : l ≡ₚ k → sorted l = sorted k.
Proof.
  intros Hlk. apply (StronglySorted_unique path_le); try apply sorted_StronglySorted.
  by rewrite !sorted_Permutation.
Qed.

Lemma list_set_Permutation l k : (∀ x, x ∈ l ↔ x ∈ k) → list_set l ≡ₚ list_set k.
Proof.
  intros Hlk. apply NoDup_Permutation; try apply NoDup_remove_dups.
  intros x. unfold list_set. by rewrite !elem_of_remove_dups.
Qed.

Lemma sorted_list_set_NoDup l : NoDup (sorted (list_set l)).
Proof. rewrite sorted_Permutation. apply NoDup_remove_dups. Qed.

Lemma elem_of_sorted_list_set l x : x ∈ sorted (list_set l) ↔ x ∈ l.
Proof. rewrite sorted_Permutation. apply elem_of_remove_dups. Qed.

(** ** Path resolution *)

Lemma relative_to_app root rel : relative_to root (root ++ rel) = Some rel.
Proof. induction root as [|r root IH]; simpl; [done|]. by rewrite decide_True. Qed.

Lemma comprehension_Ok {A B} (f : A → result B) (g : A → B) l :
  (∀ x, x ∈ l → f x = Ok (g x)) → comprehension f l = Ok (g <$> l).
Proof.
  induction l as [|x l IH]; intros Hf; simpl; [done|].
  rewrite Hf by left. simpl. rewrite IH; [done|]. intros y Hy. apply Hf. by right.
Qed.

Lemma path_le_app_prefix root p q : path_le p q → path_le (root ++ p) (root ++ q).
Proof. unfold path_le. by rewrite path_compare_app_prefix. Qed.

Lemma sorted_app_root root l :
  sorted (list_set (app root <$> l)) = app root <$> sorted (list_set l).
Proof.
  apply (StronglySorted_unique path_le).
  - apply sorted_StronglySorted.
  - apply (StronglySorted_fmap _ path_le); [apply path_le_app_prefix|apply sorted_StronglySorted].
  - rewrite !sorted_Permutation. apply NoDup_Permutation.
    + apply NoDup_remove_dups.
    + apply NoDup_fmap; [apply _|apply NoDup_remove_dups].
    + intros x. unfold list_set. rewrite elem_of_remove_dups, !list_elem_of_fmap.
      by setoid_rewrite elem_of_remove_dups.
Qed.

Lemma flat_map_fmap_app {A} (f : A → list path) (root : path) (l : list A) :
  flat_map (λ g, app root <$> f g) l = app root <$> flat_map f l.
Proof. induction l as [|x l IH]; simpl; [done|]. by rewrite IH, fmap_app. Qed.

(** Glob discovery, lines 103-109. *)
Lemma ImageDataset_init_glob E root conf :
  ImageDataset_init E root conf paths_None =
    if decide (matches E root (SimpleNamespace conf) = []) then Raise (ValueError_no_image root)
    else Ok {| self_conf := SimpleNamespace conf; self_root := root;
               self_names := as_posix <$> sorted (list_set (matches E root (SimpleNamespace conf))) |}.
Proof.
  unfold ImageDataset_init, matches.
  rewrite (flat_map_fmap_app (λ g, glob E root ("**/" +:+ g))).
  set (ms := flat_map _ _). rewrite length_fmap.
  destruct (decide (ms = [])) as [->|Hne]; [done|].
  rewrite decide_False by (by destruct ms).
  rewrite sorted_app_root.
  rewrite (comprehension_Ok _ (λ i, as_posix (drop (length root) i))).
  - simpl. do 2 f_equal. rewrite <- list_fmap_compose. apply list_fmap_ext.
    intros _ x _. simpl. by rewrite drop_app_length.
  - intros x [rel [-> _]]%list_elem_of_fmap. unfold relative_posix.
    by rewrite relative_to_app, drop_app_length.
Qed.

Lemma append_nil_l s : "" +:+ s = s.
Proof. done. Qed.

Lemma append_cons c x s : String c x +:+ s = String c (x +:+ s).
Proof. done. Qed.

Lemma slash_free_append_inj x x' s s' :
  slash_free x → slash_free x' → x +:+ "/" +:+ s = x' +:+ "/" +:+ s' → x = x' ∧ s = s'.
Proof.
  revert x'. induction x as [|c x IH]; intros [|c' x']; simpl;
    repeat (rewrite append_nil_l || rewrite append_cons).
  - intros _ _ [= ->]. done.
  - intros _ [Hc _] [= <- _]. done.
  - intros [Hc _] _ [= -> _]. done.
  - intros [_ Hx] [_ Hx'] [= -> Heq]. destruct (IH _ Hx Hx' Heq) as [-> ->]. done.
Qed.

Lemma slash_free_no_slash x x' s : slash_free x → x ≠ x' +:+ "/" +:+ s.
Proof.
  revert x. induction x' as [|c x' IH]; intros [|d x]; simpl;
    repeat (rewrite append_nil_l || rewrite append_cons); try done.
  - intros [Hd _] [= -> _]. done.
  - intros [_ Hx] [= _ Heq]. by apply (IH x).
Qed.

Lemma as_posix_cons x y l : as_posix (x :: y :: l) = x +:+ "/" +:+ as_posix (y :: l).
Proof. done. Qed.

(** Distinct relative paths have distinct POSIX names. *)
Lemma as_posix_inj p q : relative_path p → relative_path q → as_posix p = as_posix q → p = q.
Proof.
  intros [Hp Fp] [Hq Fq]. revert q Hq Fq Hp.
  induction Fp as [|x p Hx Fp IH]; [done|]. intros q Hq Fq _.
  destruct Fq as [|x' q Hx' Fq]; [done|].
  destruct p as [|y p], q as [|y' q].
  - unfold as_posix. simpl. by intros ->.
  - rewrite (as_posix_cons x' y' q). intros Heq. by apply slash_free_no_slash in Heq.
  - rewrite (as_posix_cons x y p). intros Heq. symmetry in Heq.
    by apply slash_free_no_slash in Heq.
  - rewrite (as_posix_cons x y p), (as_posix_cons x' y' q). intros Heq.
    apply slash_free_append_inj in Heq as [-> Heq]; try done.
    f_equal. by apply IH.
Qed.

(** Explicit lists, lines 112-123. *)
Lemma ImageDataset_init_iterable E root conf l :
  ImageDataset_init E root conf (paths_iterable l) =
    (check_exists E root (name_of <$> l);;
     Ok {| self_conf := SimpleNamespace conf; self_root := root; self_names := name_of <$> l |}).
Proof. done. Qed.

Lemma ImageDataset_init_file E root conf f :
  ImageDataset_init E root conf (paths_file f) =
    (names ← parse_image_lists E f;
     check_exists E root names;;
     Ok {| self_conf := SimpleNamespace conf; self_root := root; self_names := names |}).
Proof. done. Qed.

Lemma check_exists_Ok E root names :
  check_exists E root names = Ok tt ↔ ∀ name, name ∈ names → path_exists E root name = true.
Proof.
  induction names as [|n names IH]; simpl.
  - split; [|done]. intros _ name Hin. by apply elem_of_nil in Hin.
  - destruct (path_exists E root n) eqn:Hn.
    + rewrite IH. split.
      * intros H name [->|Hin]%elem_of_cons; auto.
      * intros H name Hin. apply H. by right.
    + split; [done|]. intros H. rewrite H in Hn by left. done.
Qed.

Lemma check_exists_cases E root names :
  check_exists E root names = Ok tt ∨
  ∃ missing, missing ∈ names ∧ path_exists E root missing = false ∧
    check_exists E root names = Raise (ValueError_missing_image missing root).
Proof.
  induction names as [|n names IH]; simpl; [by left|].
  destruct (path_exists E root n) eqn:Hn.
  - destruct IH as [IH|(m & Hin & Hm & IH)]; [by left|].
    right. exists m. split_and!; [by right|done..].
  - right. exists n. split_and!; [by left|done..].
Qed.

Lemma check_exists_missing E root names name :
  name ∈ names → path_exists E root name = false →
  ∃ missing, missing ∈ names ∧ path_exists E root missing = false ∧
    check_exists E root names = Raise (ValueError_missing_image missing root).
Proof.
  intros Hin Hname. destruct (check_exists_cases E root names) as [Hok|H]; [|done].
  rewrite check_exists_Ok in Hok. rewrite (Hok _ Hin) in Hname. done.
Qed.

(** An exception raised by [ImageDataset] leaves [main] before any
    effect. *)
Lemma main_upto_init_Raise upto E conf image_dir export_dir as_half image_list feature_path w e :
  ImageDataset_init E image_dir (preprocessing conf) image_list = Raise e →
  main_upto upto E conf image_dir export_dir as_half image_list feature_path w =
    Build_outcome (Raise e) w [].
Proof. intros H. unfold main_upto, mbind, run_bind, lift. simpl. by rewrite H. Qed.

(** ** The effects of the primitives *)

Lemma run_bind_Ok {A B} (m : run A) (f : A → run B) w a :
  returned (m w) = Ok a →
  (m ≫= f) w = Build_outcome (returned (f a (final (m w)))) (final (f a (final (m w))))
                 (trace (m w) ++ trace (f a (final (m w)))).
Proof. intros H. unfold mbind, run_bind. by rewrite H. Qed.

Lemma run_bind_Raise {A B} (m : run A) (f : A → run B) w e :
  returned (m w) = Raise e →
  (m ≫= f) w = Build_outcome (Raise e) (final (m w)) (trace (m w)).
Proof. intros H. unfold mbind, run_bind. by rewrite H. Qed.

Lemma run_bind_unfold {A B} (m : run A) (f : A → run B) w :
  (m ≫= f) w =
    match returned (m w) with
    | Ok a => Build_outcome (returned (f a (final (m w)))) (final (f a (final (m w))))
                (trace (m w) ++ trace (f a (final (m w))))
    | Raise e => Build_outcome (Raise e) (final (m w)) (trace (m w))
    end.
Proof. done. Qed.

Lemma bind_lift_Ok {A B} (a : A) (f : A → run B) w : (lift (Ok a) ≫= f) w = f a w.
Proof. unfold mbind, run_bind, lift. simpl. by destruct (f a w). Qed.

Lemma bind_mret {A B} (a : A) (f : A → run B) w : (mret a ≫= f) w = f a w.
Proof. unfold mbind, run_bind, mret, run_ret. simpl. by destruct (f a w). Qed.

Lemma bind_lift_Raise {A B} e (f : A → run B) w :
  (lift (Raise e) ≫= f) w = Build_outcome (Raise e) w [].
Proof. done. Qed.


Lemma world_eta (w : world) : {| dirs := dirs w; files := files w |} = w.
Proof. by destruct w. Qed.

Lemma mkdir_Ok p w :
  Forall (λ a, files w !! a = None) (ancestors p) →
  mkdir p w = Build_outcome (Ok tt) (with_dirs w p) [Mkdir p].
Proof.
  intros H. unfold mkdir, mbind, run_bind, get_world. simpl.
  rewrite decide_False; [done|].
  rewrite Exists_exists. intros (a & Ha & [fd Hfd]).
  rewrite Forall_forall in H. rewrite (H _ Ha) in Hfd. done.
Qed.

Lemma mkdir_Raise p w :
  ¬ Forall (λ a, files w !! a = None) (ancestors p) →
  mkdir p w = Build_outcome (Raise (OSError p)) w [].
Proof.
  intros H. unfold mkdir, mbind, run_bind, get_world. simpl.
  rewrite decide_True; [done|].
  apply not_Forall_Exists in H; [|intros a; apply _].
  eapply Exists_impl; [done|]. simpl. intros a Ha.
  by destruct (files w !! a).
Qed.

Lemma append_new w p name g :
  files w !! p = None → p ∉ dirs w → p ≠ [] →
  append p name g w = Build_outcome (Ok tt) (write_group w p name g) [CreateGroup p name].
Proof.
  intros Hf Hd Hp. unfold append, mbind, run_bind, get_world, put_world, write_group. simpl.
  rewrite Hf. simpl. rewrite decide_False by tauto. simpl.
  rewrite decide_False by (rewrite lookup_empty; by intros [? ?]). simpl.
  by rewrite insert_insert_eq.
Qed.

Lemma append_fresh w p name g fd :
  files w !! p = Some fd → fd !! name = None →
  append p name g w = Build_outcome (Ok tt) (write_group w p name g) [CreateGroup p name].
Proof.
  intros Hf Hn. unfold append, mbind, run_bind, get_world, put_world, write_group. simpl.
  rewrite Hf. simpl. rewrite decide_False by (rewrite Hn; by intros [? ?]). done.
Qed.

Lemma append_exists w p name g fd :
  files w !! p = Some fd → is_Some (fd !! name) →
  append p name g w = Build_outcome (Raise (ValueError_group_exists name)) w [].
Proof.
  intros Hf Hn. unfold append, mbind, run_bind, get_world, put_world. simpl.
  rewrite Hf. simpl. by rewrite decide_True.
Qed.

Lemma append_directory w p name g :
  files w !! p = None → p ∈ dirs w ∨ p = [] →
  append p name g w = Build_outcome (Raise (OSError p)) w [].
Proof.
  intros Hf Hd. unfold append, mbind, run_bind, get_world, put_world. simpl.
  rewrite Hf. simpl. by rewrite decide_True.
Qed.

(** *** The export tree after a group was written *)

Lemma elem_of_keys w p name : name ∈ keys w p ↔ is_Some (stored w p name).
Proof.
  unfold keys, stored. destruct (files w !! p) as [fd|]; simpl.
  - apply elem_of_dom.
  - split; [set_solver|]. by intros [? ?].
Qed.

Lemma stored_write_group w p name g : stored (write_group w p name g) p name = Some g.
Proof. unfold stored, write_group. simpl. rewrite lookup_insert_eq. simpl. apply lookup_insert_eq. Qed.

Lemma stored_write_group_ne w p name g q n :
  (q, n) ≠ (p, name) → stored (write_group w p name g) q n = stored w q n.
Proof.
  intros Hne. unfold stored, write_group. simpl.
  destruct (decide (q = p)) as [->|Hq].
  - rewrite lookup_insert_eq. simpl. rewrite lookup_insert_ne by congruence.
    by destruct (files w !! p).
  - by rewrite lookup_insert_ne.
Qed.

Lemma keys_write_group w p name g : keys (write_group w p name g) p = {[name]} ∪ keys w p.
Proof.
  unfold keys, write_group. simpl. rewrite lookup_insert_eq, dom_insert_L.
  destruct (files w !! p); simpl; [done|]. by rewrite dom_empty_L.
Qed.

(** ** One iteration of the loop *)

Section step.
Context (backend : data → result prediction) (feature_path : path) (as_half : bool).
Context (skip_names : gset string).

Lemma step_skip d w :
  data_name d ∈ skip_names →
  step backend feature_path as_half skip_names d w = Build_outcome (Ok tt) w [].
Proof. intros H. unfold step. by rewrite decide_True. Qed.

Lemma step_fresh d w :
  data_name d ∉ skip_names →
  step backend feature_path as_half skip_names d w =
    match processed backend as_half d with
    | Ok g => let o := append feature_path (data_name d) g w in
              Build_outcome (returned o) (final o) (Forward (data_name d) :: trace o)
    | Raise e => Build_outcome (Raise e) w [Forward (data_name d)]
    end.
Proof.
  intros H. unfold step, processed, forward. rewrite decide_False by done.
  unfold mbind, run_bind, emit, lift. simpl.
  destruct (backend d) as [pred|e]; simpl; [|done].
  destruct (rescale d pred) as [pred'|e]; simpl; done.
Qed.

(** Whatever it returns, an iteration leaves the export tree as it was
    or with one more group, that of its element. *)
Lemma step_cases d w :
  let o := step backend feature_path as_half skip_names d w in
  ((data_name d ∈ skip_names) ∧ o = Build_outcome (Ok tt) w [])
  ∨ ((data_name d ∉ skip_names) ∧
     ∃ e, o = Build_outcome (Raise e) w [Forward (data_name d)] ∧
       (processed backend as_half d = Raise e
        ∨ is_Ok (processed backend as_half d) ∧
          (e = ValueError_group_exists (data_name d) ∧ (data_name d ∈ keys w feature_path)
           ∨ e = OSError feature_path ∧ files w !! feature_path = None ∧
             ((feature_path ∈ dirs w) ∨ feature_path = []))))
  ∨ ((data_name d ∉ skip_names) ∧ (data_name d ∉ keys w feature_path) ∧
     (is_Some (files w !! feature_path) ∨ (feature_path ∉ dirs w) ∧ feature_path ≠ []) ∧
     ∃ g, processed backend as_half d = Ok g ∧
       o = Build_outcome (Ok tt) (write_group w feature_path (data_name d) g)
             [Forward (data_name d); CreateGroup feature_path (data_name d)]).
Proof.
  intros o. subst o.
  destruct (decide (data_name d ∈ skip_names)) as [Hs|Hs].
  { left. split; [done|]. by apply step_skip. }
  right. rewrite step_fresh by done.
  destruct (processed backend as_half d) as [g|e] eqn:Hg.
  2:{ left. split; [done|]. exists e. split; [done|]. by left. }
  destruct (files w !! feature_path) as [fd|] eqn:Hf.
  - destruct (fd !! data_name d) as [g'|] eqn:Hn.
    + left. split; [done|]. eexists. rewrite (append_exists _ _ _ _ fd) by (rewrite ?Hn; eauto).
      split; [done|]. right. split; [by eexists|]. left. split; [done|].
      unfold keys. rewrite Hf. apply elem_of_dom. by eexists.
    + right. split; [done|]. rewrite (append_fresh _ _ _ _ fd) by done. split_and!.
      * unfold keys. rewrite Hf. by apply not_elem_of_dom.
      * left. by eexists.
      * by exists g.
  - destruct (decide (feature_path ∈ dirs w ∨ feature_path = [])) as [Hd|Hd].
    + left. split; [done|]. eexists. rewrite append_directory by done.
      split; [done|]. right. split; [by eexists|]. by right.
    + right. split; [done|]. rewrite append_new by tauto. split_and!.
      * unfold keys. rewrite Hf. set_solver.
      * right. tauto.
      * by exists g.
Qed.
End step.

(** ** The loop *)

Lemma extends_refl p w : extends p w w.
Proof. by split_and!. Qed.

Lemma extends_trans p w1 w2 w3 : extends p w1 w2 → extends p w2 w3 → extends p w1 w3.
Proof.
  intros (Hd & Hf & He & Hs) (Hd' & Hf' & He' & Hs'). split_and!.
  - congruence.
  - intros q Hq. rewrite Hf', Hf by done. done.
  - eauto.
  - eauto.
Qed.

Lemma extends_write_group p w name g :
  (name ∉ keys w p) → extends p w (write_group w p name g).
Proof.
  intros Hn. split_and!; [done|..].
  - intros q Hq. unfold write_group. simpl. by rewrite lookup_insert_ne.
  - intros _. unfold write_group. simpl. rewrite lookup_insert_eq. by eexists.
  - intros q n g' Hs. rewrite stored_write_group_ne; [done|].
    intros [= -> ->]. apply Hn, elem_of_keys. by eexists.
Qed.

Lemma extends_keys p w w' : extends p w w' → keys w p ⊆ keys w' p.
Proof.
  intros (_ & _ & _ & Hs) n [g Hg]%elem_of_keys. apply elem_of_keys. eauto.
Qed.

Lemma names_of_cons_Ok d items : names_of (Ok d :: items) = data_name d :: names_of items.
Proof. done. Qed.


Section loop.
Context (backend : data → result prediction) (feature_path : path) (as_half : bool).
Context (skip_names : gset string).

Local Abbreviation step := (step backend feature_path as_half skip_names).
Local Abbreviation loop := (loop backend feature_path as_half skip_names).


Lemma loop_cons_Ok d items w :
  loop (Ok d :: items) w =
    let o := step d w in
    match returned o with
    | Ok _ => let o' := loop items (final o) in
              Build_outcome (returned o') (final o') (trace o ++ trace o')
    | Raise e => Build_outcome (Raise e) (final o) (trace o)
    end.
Proof.
  simpl. unfold mbind, run_bind, lift. simpl.
  destruct (returned (step d w)); done.
Qed.


Lemma loop_extends items w : extends feature_path w (final (loop items w)).
Proof.
  revert w. induction items as [|[d|e] items IH]; intros w; try apply extends_refl.
  rewrite loop_cons_Ok.
  destruct (step_cases backend feature_path as_half skip_names d w)
    as [(Hs & ->)|[(Hs & e & -> & _)|(Hs & Hk & Hf & g & Hg & ->)]]; simpl.
  - apply IH.
  - apply extends_refl.
  - eapply extends_trans; [by apply extends_write_group|apply IH].
Qed.


(** What a loop that returns has done. *)
Lemma loop_Ok items w :
  let o := loop items w in
  returned o = Ok tt →
  Forall (λ item, ∃ d, item = Ok d ∧
            ((data_name d ∈ skip_names) ∨
             (data_name d ∉ keys w feature_path) ∧
             ∃ g, processed backend as_half d = Ok g ∧
                  stored (final o) feature_path (data_name d) = Some g)) items ∧
  NoDup (filter (.∉ skip_names) (names_of items)) ∧
  trace o = writes feature_path (filter (.∉ skip_names) (names_of items)) ∧
  keys (final o) feature_path =
    keys w feature_path ∪ list_to_set (filter (.∉ skip_names) (names_of items)).
Proof.
  revert w. induction items as [|[d|e] items IH]; intros w; cbv zeta; [| |done].
  { intros _. split_and!; [done|constructor|done|set_solver]. }
  specialize (IH (final (step d w))). cbv zeta in IH.
  rewrite loop_cons_Ok, names_of_cons_Ok. cbv zeta.
  destruct (step_cases backend feature_path as_half skip_names d w)
    as [(Hs & Ho)|[(Hs & e & Ho & _)|(Hs & Hk & Hf & g & Hg & Ho)]];
    rewrite Ho in *; cbn [returned final trace] in *; [| done |].
    + intros Hok. destruct (IH Hok) as (H1 & H2 & H3 & H4).
      rewrite filter_cons_False by (by intros ?). split_and!; try done.
      constructor; [|done]. exists d. split; [done|]. by left.
    + intros Hok. set (w1 := write_group w feature_path (data_name d) g) in *.
      destruct (IH Hok) as (H1 & H2 & H3 & H4).
      assert (Hext : extends feature_path w w1) by by apply extends_write_group.
      assert (Hext' : extends feature_path w1 (final (loop items w1))) by apply loop_extends.
      rewrite filter_cons_True by done. split_and!.
      * constructor.
        -- exists d. split; [done|]. right. split; [done|]. exists g. split; [done|].
           apply Hext'. apply stored_write_group.
        -- eapply Forall_impl; [exact H1|]. simpl.
           intros item (d' & -> & [Hd'|(Hd' & Hg')]); exists d'; (split; [done|]); [by left|].
           right. split; [|done]. intros Hin. apply Hd'. by apply (extends_keys _ _ _ Hext).
      * constructor; [|done]. intros Hin.
        rewrite Forall_forall in H1.
        apply list_elem_of_filter in Hin as [Hns Hin].
        unfold names_of in Hin. apply list_elem_of_omap in Hin as (item & Hitem & Hname).
        destruct (H1 _ Hitem) as (d' & -> & [Hd'|(Hd' & _)]); simpl in Hname;
          injection Hname as Hname; rewrite Hname in *; [done|].
        apply Hd'. unfold w1. rewrite keys_write_group. set_solver.
      * simpl. by rewrite H3.
      * rewrite H4. unfold w1. rewrite keys_write_group. set_solver.
Qed.
End loop.

(** ** The stages of [main] *)

Global Instance writable_dec w p : Decision (writable w p).
Proof. unfold writable. apply _. Defined.

Lemma read_skip_names_writable p w :
  writable w p → read_skip_names p w = Build_outcome (Ok (keys w p)) w (listing w p).
Proof.
  intros Hw. unfold read_skip_names, exists_, list_h5_names, get_world, emit, raise, lift.
  unfold keys, listing, mbind, run_bind, mret, run_ret. simpl.
  destruct (files w !! p) as [fd|] eqn:Hf.
  - rewrite bool_decide_eq_true_2 by (left; by eexists). simpl. by rewrite Hf.
  - destruct Hw as [[? ?]|[Hd Hp]]; [congruence|].
    rewrite bool_decide_eq_false_2; [done|]. intros [[? ?]|[?|?]]; done.
Qed.

Lemma read_skip_names_blocked p w :
  ¬ writable w p → read_skip_names p w = Build_outcome (Raise (OSError p)) w [].
Proof.
  intros Hw. unfold read_skip_names, exists_, list_h5_names, get_world, emit, raise, lift.
  unfold mbind, run_bind, mret, run_ret. simpl.
  destruct (files w !! p) as [fd|] eqn:Hf.
  { destruct Hw. left. by eexists. }
  rewrite bool_decide_eq_true_2.
  - simpl. by rewrite Hf.
  - right. destruct (decide (p ∈ dirs w)); [by left|]. right.
    destruct p; [done|]. destruct Hw. by right.
Qed.

Lemma load_model_spec E conf w :
  load_model E conf w =
    match the_backend E conf with
    | Ok backend => Build_outcome (Ok backend) w [LoadModel (name (model conf))]
    | Raise e => Build_outcome (Raise e) w []
    end.
Proof.
  unfold load_model, the_backend, lift, emit, mbind, run_bind, result_bind, mret, run_ret.
  simpl. destruct (dynamic_load E (name (model conf))) as [Model|e]; simpl; [|done].
  destruct (Model (model conf)) as [backend|e]; done.
Qed.

Lemma files_with_dirs w p : files (with_dirs w p) = files w.
Proof. done. Qed.

Lemma keys_with_dirs w p q : keys (with_dirs w p) q = keys w q.
Proof. done. Qed.

Lemma stored_with_dirs w p q n : stored (with_dirs w p) q n = stored w q n.
Proof. done. Qed.

Lemma listing_with_dirs w p q : listing (with_dirs w p) q = listing w q.
Proof. done. Qed.

Lemma main_upto_extraction upto E conf image_dir export_dir as_half image_list feature_path
    w loader p :
  ImageDataset_init E image_dir (preprocessing conf) image_list = Ok loader →
  the_feature_path feature_path export_dir conf = Ok p →
  main_upto upto E conf image_dir export_dir as_half image_list feature_path w =
    extraction upto E conf as_half loader p w.
Proof.
  intros Hinit Hp. unfold main_upto. rewrite Hinit, bind_lift_Ok.
  unfold the_feature_path in Hp. destruct feature_path as [p0|].
  - injection Hp as ->. apply bind_mret.
  - rewrite Hp. apply bind_lift_Ok.
Qed.

Lemma main_upto_no_path upto E conf image_dir export_dir as_half image_list feature_path
    w loader e :
  ImageDataset_init E image_dir (preprocessing conf) image_list = Ok loader →
  the_feature_path feature_path export_dir conf = Raise e →
  main_upto upto E conf image_dir export_dir as_half image_list feature_path w =
    Build_outcome (Raise e) w [].
Proof.
  intros Hinit Hp. unfold main_upto. rewrite Hinit, bind_lift_Ok.
  unfold the_feature_path in Hp. destruct feature_path as [p0|]; [done|].
  by rewrite Hp.
Qed.

(** Every way [main] can go, for a run whose image names resolve to
    [loader], whose feature path is [p] and whose export directory can
    be created. *)
Lemma main_upto_resolved upto E conf image_dir export_dir as_half image_list feature_path
    w loader p :
  ImageDataset_init E image_dir (preprocessing conf) image_list = Ok loader →
  the_feature_path feature_path export_dir conf = Ok p →
  Forall (λ a, files w !! a = None) (ancestors (parent p)) →
  let o := main_upto upto E conf image_dir export_dir as_half image_list feature_path w in
  let w1 := with_dirs w (parent p) in
  let skip_names := keys w p in
  (¬ writable w1 p ∧ o = Build_outcome (Raise (OSError p)) w1 [Mkdir (parent p)])
  ∨ (writable w1 p ∧ list_to_set (self_names loader) ⊆ skip_names ∧
     o = Build_outcome (Ok p) w1 (Mkdir (parent p) :: listing w p))
  ∨ (writable w1 p ∧ ¬ list_to_set (self_names loader) ⊆ skip_names ∧
     ∃ e, the_backend E conf = Raise e ∧
       o = Build_outcome (Raise e) w1 (Mkdir (parent p) :: listing w p))
  ∨ (writable w1 p ∧ ¬ list_to_set (self_names loader) ⊆ skip_names ∧
     ∃ backend, the_backend E conf = Ok backend ∧
       let ol := loop backend p as_half skip_names (upto (DataLoader E loader)) w1 in
       o = Build_outcome (match returned ol with Ok _ => Ok p | Raise e => Raise e end)
             (final ol)
             (Mkdir (parent p) :: listing w p ++ LoadModel (name (model conf)) :: trace ol)).
Proof.
  intros Hinit Hp Hmk o w1 skip_names. subst o.
  rewrite (main_upto_extraction _ _ _ _ _ _ _ _ _ loader p) by done. unfold extraction.
  rewrite run_bind_unfold, mkdir_Ok by done. cbn [returned final trace]. fold w1.
  rewrite run_bind_unfold.
  destruct (decide (writable w1 p)) as [Hw|Hw].
  2:{ left. split; [done|]. by rewrite read_skip_names_blocked. }
  right. rewrite read_skip_names_writable by done. cbn [returned final trace].
  change (keys w1 p) with skip_names. change (listing w1 p) with (listing w p).
  destruct (decide (list_to_set (self_names loader) ⊆ skip_names)) as [Hsub|Hsub].
  { left. split_and!; [done..|]. cbn. by rewrite app_nil_r. }
  right. rewrite run_bind_unfold, load_model_spec.
  destruct (the_backend E conf) as [backend|e]; cbn [returned final trace].
  2:{ left. split_and!; [done..|]. exists e. split; [done|]. cbn. by rewrite app_nil_r. }
  right. split_and!; [done..|]. exists backend. split; [done|]. cbv zeta.
  rewrite run_bind_unfold.
  destruct (returned (loop _ _ _ _ _ _)) as [[]|e]; cbn [returned final trace].
  - cbn. by rewrite app_nil_r.
  - done.
Qed.

(** ** Reading the trace *)


Lemma loaded_models_app t1 t2 : loaded_models (t1 ++ t2) = loaded_models t1 ++ loaded_models t2.
Proof. apply omap_app. Qed.



Lemma forward_calls_listing w p : forward_calls (listing w p) = [].
Proof. unfold listing. by destruct (files w !! p). Qed.

Lemma loaded_models_listing w p : loaded_models (listing w p) = [].
Proof. unfold listing. by destruct (files w !! p). Qed.

Lemma writes_app p l k : writes p (l ++ k) = writes p l ++ writes p k.
Proof. apply flat_map_app. Qed.

Lemma elem_of_writes p l n : CreateGroup p n ∈ writes p l ↔ n ∈ l.
Proof.
  unfold writes. rewrite list_elem_of_In, in_flat_map. split.
  - intros (m & Hm & Hin). apply list_elem_of_In in Hm, Hin.
    apply elem_of_cons in Hin as [[=]|Hin].
    apply list_elem_of_singleton in Hin as [= ->]. done.
  - intros Hn. exists n. split; [by apply list_elem_of_In|].
    apply list_elem_of_In. set_solver.
Qed.

(** ** The loader *)

Lemma DataLoader_names E loader : DataLoader E loader = load E loader <$> self_names loader.
Proof.
  unfold DataLoader, len, getitem. apply list_eq. intros i.
  rewrite !list_lookup_fmap.
  destruct (decide (i < length (self_names loader))%nat) as [Hi|Hi].
  - rewrite lookup_seq_lt by done. simpl.
    destruct (lookup_lt_is_Some_2 _ _ Hi) as [n Hn]. by rewrite Hn.
  - rewrite lookup_seq_ge by lia. rewrite lookup_ge_None_2 by lia. done.
Qed.

Lemma load_name E loader n d : load E loader n = Ok d → data_name d = n.
Proof.
  unfold load. destruct (read_image _ _ _ _) as [img|]; simpl; [|done].
  destruct (resize _ _) as [img'|]; simpl; [|done]. by intros [= <-].
Qed.

(** The names of the elements are the names of the dataset, as far as
    the elements load. *)
Lemma names_of_load E loader l :
  Forall (λ item, ∃ d, item = Ok d) (load E loader <$> l) → names_of (load E loader <$> l) = l.
Proof.
  induction l as [|n l IH]; [done|]. rewrite fmap_cons.
  intros [(d & Hd) Hl]%Forall_cons. rewrite Hd, names_of_cons_Ok, IH by done.
  by rewrite (load_name _ _ _ _ Hd).
Qed.

(** ** Directories *)

Lemma ancestors_length p a : a ∈ ancestors p → (length a ≤ length p)%nat.
Proof.
  unfold ancestors. intros (n & -> & Hn)%list_elem_of_fmap. rewrite length_take. lia.
Qed.

Lemma elem_of_ancestors_self p : p ≠ [] → p ∈ ancestors p.
Proof.
  intros Hp. unfold ancestors. apply list_elem_of_fmap. exists (length p). split.
  - by rewrite firstn_all.
  - apply elem_of_seq. destruct p; simpl in *; [done|lia].
Qed.

Lemma parent_length p : p ≠ [] → (length (parent p) < length p)%nat.
Proof.
  intros Hp. unfold parent. destruct (exists_last Hp) as (q & x & ->).
  rewrite removelast_last, length_app. simpl. lia.
Qed.

(** A feature file is not one of the directories that lead to it. *)
Lemma not_ancestor_of_parent p : p ≠ [] → p ∉ ancestors (parent p).
Proof.
  intros Hp Hin. apply ancestors_length in Hin. pose proof (parent_length p Hp). lia.
Qed.



(** ** Skipping the extraction *)

(** The run of lines 170-172: every name is in the feature file. *)
Lemma main_skip_all E conf image_dir export_dir as_half image_list feature_path w loader p fd :
  ImageDataset_init E image_dir (preprocessing conf) image_list = Ok loader →
  the_feature_path feature_path export_dir conf = Ok p →
  Forall (λ a, files w !! a = None) (ancestors (parent p)) →
  files w !! p = Some fd →
  Forall (λ name, is_Some (fd !! name)) (self_names loader) →
  main E conf image_dir export_dir as_half image_list feature_path w =
    Build_outcome (Ok p) (with_dirs w (parent p)) [Mkdir (parent p); ListNames p].
Proof.
  intros Hinit Hp Hmk Hfd Hnames.
  assert (Hsub : list_to_set (self_names loader) ⊆ keys w p).
  { intros n Hn%elem_of_list_to_set. unfold keys. rewrite Hfd. apply elem_of_dom.
    rewrite Forall_forall in Hnames. by apply Hnames. }
  assert (Hw : writable (with_dirs w (parent p)) p) by (left; by eexists).
  unfold main.
  destruct (main_upto_resolved id E conf image_dir export_dir as_half image_list feature_path
              w loader p Hinit Hp Hmk)
    as [(? & _)|[(_ & _ & ->)|[(_ & ? & _)|(_ & ? & _)]]]; try done.
  unfold listing. by rewrite Hfd.
Qed.

(** C4. Skip-all short-circuit: when every resolved image name is
    already a key of the existing feature store, [main] returns the
    feature path without loading a backend and without a single call of
    the model; its only effects are the creation of the export directory
    and the listing of the store. *)
Theorem C4_skip_all_short_circuit E conf image_dir export_dir as_half image_list feature_path
    w loader p fd :
  ImageDataset_init E image_dir (preprocessing conf) image_list = Ok loader →
  the_feature_path feature_path export_dir conf = Ok p →
  Forall (λ a, files w !! a = None) (ancestors (parent p)) →
  files w !! p = Some fd →
  Forall (λ name, is_Some (fd !! name)) (self_names loader) →
  let o := main E conf image_dir export_dir as_half image_list feature_path w in
  returned o = Ok p ∧
  loaded_models (trace o) = [] ∧
  forward_calls (trace o) = [] ∧
  trace o = [Mkdir (parent p); ListNames p] ∧
  files (final o) = files w.
Proof.
  intros Hinit Hp Hmk Hfd Hnames o. subst o.
  rewrite (main_skip_all _ _ _ _ _ _ _ _ _ _ _ Hinit Hp Hmk Hfd Hnames). done.
Qed.

Lemma C4_skip_all_short_circuit_witness :
  let o := main example_env example_conf example_root (Some example_export) false paths_None
             None example_done in
  returned o = Ok ["outputs"; "feats-example.h5"] ∧
  loaded_models (trace o) = [] ∧
  forward_calls (trace o) = [] ∧
  trace o = [Mkdir ["outputs"]; ListNames ["outputs"; "feats-example.h5"]] ∧
  files (final o) = files example_done.
Proof.
  apply (C4_skip_all_short_circuit example_env example_conf example_root (Some example_export)
           false paths_None None example_done
           {| self_conf := SimpleNamespace (preprocessing example_conf);
              self_root := example_root; self_names := ["a.jpg"; "b.png"] |}
           ["outputs"; "feats-example.h5"]
           {[ "a.jpg" := {[ "image_size" := IntArray [2%nat] [100; 50] ]};
              "b.png" := {[ "image_size" := IntArray [2%nat] [50; 100] ]} ]}).
  - reflexivity.
  - reflexivity.
  - repeat constructor.
  - reflexivity.
  - repeat constructor; eexists; reflexivity.
Defined.

(** ** Failing fast *)

(** C8. Fail-fast path-resolution errors: glob discovery that matches
    no image, an explicitly listed name (in memory or in a list file)
    with no file under the root, and a [paths] argument of an unknown
    kind each make [main] raise with the export tree untouched and no
    effect at all: nothing is created, no backend is loaded, the model is
    never called. *)
Theorem C8_fail_fast E conf image_dir export_dir as_half feature_path w :
  (matches E image_dir (SimpleNamespace (preprocessing conf)) = [] →
   main E conf image_dir export_dir as_half paths_None feature_path w =
     Build_outcome (Raise (ValueError_no_image image_dir)) w [])
  ∧ (∀ l name,
       name ∈ name_of <$> l → path_exists E image_dir name = false →
       ∃ missing, missing ∈ name_of <$> l ∧ path_exists E image_dir missing = false ∧
         main E conf image_dir export_dir as_half (paths_iterable l) feature_path w =
           Build_outcome (Raise (ValueError_missing_image missing image_dir)) w [])
  ∧ (∀ f names name,
       parse_image_lists E f = Ok names →
       name ∈ names → path_exists E image_dir name = false →
       ∃ missing, missing ∈ names ∧ path_exists E image_dir missing = false ∧
         main E conf image_dir export_dir as_half (paths_file f) feature_path w =
           Build_outcome (Raise (ValueError_missing_image missing image_dir)) w [])
  ∧ main E conf image_dir export_dir as_half paths_other feature_path w =
      Build_outcome (Raise ValueError_unknown_format) w [].
Proof.
  split_and!.
  - intros Hnone. apply main_upto_init_Raise.
    rewrite ImageDataset_init_glob. by rewrite decide_True.
  - intros l name Hin Hname.
    destruct (check_exists_missing _ _ _ _ Hin Hname) as (missing & Hm & Hmissing & Hraise).
    exists missing. split_and!; [done..|]. apply main_upto_init_Raise.
    rewrite ImageDataset_init_iterable, Hraise. done.
  - intros f names name Hparse Hin Hname.
    destruct (check_exists_missing _ _ _ _ Hin Hname) as (missing & Hm & Hmissing & Hraise).
    exists missing. split_and!; [done..|]. apply main_upto_init_Raise.
    rewrite ImageDataset_init_file, Hparse. simpl. rewrite Hraise. done.
  - by apply main_upto_init_Raise.
Qed.

Lemma C8_fail_fast_witness :
  main example_env
    {| output := "feats"; model := model example_conf;
       preprocessing := {| d_globs := Some ["*.tif"]; d_grayscale := None;
                           d_resize_max := None; d_resize_force := None |} |}
    example_root (Some example_export) false paths_None None empty_world =
    Build_outcome (Raise (ValueError_no_image example_root)) empty_world []
  ∧ main example_env example_conf example_root (Some example_export) false
      (paths_iterable [A_str "a.jpg"; A_Path ["sub"; "c.jpg"]]) None empty_world =
    Build_outcome (Raise (ValueError_missing_image "sub/c.jpg" example_root)) empty_world [].
Proof.
  split.
  - apply C8_fail_fast. reflexivity.
  - destruct (C8_fail_fast example_env example_conf example_root (Some example_export) false
                None empty_world) as (_ & H & _).
    destruct (H [A_str "a.jpg"; A_Path ["sub"; "c.jpg"]] "sub/c.jpg")
      as (missing & Hin & Hmissing & Hmain).
    + set_solver.
    + reflexivity.
    + rewrite Hmain. do 2 f_equal.
      apply elem_of_cons in Hin as [->|Hin]; [discriminate Hmissing|].
      by apply list_elem_of_singleton in Hin as ->.
Defined.

(** ** The export directory *)

Lemma writable_with_dirs w p : writable (with_dirs w (parent p)) p ↔ writable w p.
Proof.
  unfold writable. simpl. split; intros [Hf|[Hd Hp]]; [by left| |by left|]; right;
    (split; [|done]).
  - set_solver.
  - apply not_elem_of_union. split; [done|].
    rewrite elem_of_list_to_set. by apply not_ancestor_of_parent.
Qed.

(** C10. Whenever the image names resolve and the export directory can
    be created, creating it is the first effect of [main], before the
    feature store is read: the directory exists afterwards whatever
    [main] then does, a run that skips the extraction has no other effect
    on the tree, and [main] returns the same feature path whether it
    skipped the extraction or went through the loop. *)
Theorem C10_export_directory_created E conf image_dir export_dir as_half image_list
    feature_path w loader p :
  ImageDataset_init E image_dir (preprocessing conf) image_list = Ok loader →
  the_feature_path feature_path export_dir conf = Ok p →
  Forall (λ a, files w !! a = None) (ancestors (parent p)) →
  let o := main E conf image_dir export_dir as_half image_list feature_path w in
  (∃ tr, trace o = Mkdir (parent p) :: tr) ∧
  dirs (final o) = dirs w ∪ list_to_set (ancestors (parent p)) ∧
  (parent p ≠ [] → parent p ∈ dirs (final o)) ∧
  (∀ v, returned o = Ok v → v = p) ∧
  (writable w p → list_to_set (self_names loader) ⊆ keys w p →
   o = Build_outcome (Ok p) (with_dirs w (parent p)) (Mkdir (parent p) :: listing w p)) ∧
  (∀ backend,
     writable w p →
     ¬ list_to_set (self_names loader) ⊆ keys w p →
     the_backend E conf = Ok backend →
     returned (loop backend p as_half (keys w p) (DataLoader E loader)
                 (with_dirs w (parent p))) = Ok tt →
     returned o = Ok p).
Proof.
  intros Hinit Hp Hmk o. subst o. unfold main.
  assert (Hdirs : ∀ o : outcome path,
            dirs (final o) = dirs w ∪ list_to_set (ancestors (parent p)) →
            parent p ≠ [] → parent p ∈ dirs (final o)).
  { intros o -> Hne. apply elem_of_union_r, elem_of_list_to_set.
    by apply elem_of_ancestors_self. }
  destruct (main_upto_resolved id E conf image_dir export_dir as_half image_list feature_path
              w loader p Hinit Hp Hmk)
    as [(Hw & Ho)|[(Hw & Hsub & Ho)|[(Hw & Hsub & e & He & Ho)
       |(Hw & Hsub & backend & Hb & Ho)]]];
    cbv zeta in Ho; rewrite Ho; cbn [returned final trace];
    rewrite writable_with_dirs in Hw.
  - split_and!; [by eexists|done|by apply (Hdirs (Build_outcome (Raise (OSError p)) _ []))
                |done|done|done].
  - split_and!; [by eexists|done|by apply (Hdirs (Build_outcome (Ok p) _ []))
                |by intros v [= <-]|done|done].
  - split_and!; [by eexists|done|by apply (Hdirs (Build_outcome (Raise e) _ []))
                |done|done|].
    intros backend _ _ Hb. congruence.
  - unfold id in *.
    set (ol := loop backend p as_half (keys w p) (DataLoader E loader) (with_dirs w (parent p))).
    assert (Hdl : dirs (final ol) = dirs w ∪ list_to_set (ancestors (parent p))).
    { destruct (loop_extends backend p as_half (keys w p) (DataLoader E loader)
                  (with_dirs w (parent p))) as (Hd & _). unfold ol. by rewrite Hd. }
    split_and!; [by eexists|done|by apply (Hdirs (Build_outcome (Ok p) (final ol) []))| |done|].
    + destruct (returned ol); [by intros v [= <-]|done].
    + intros backend' _ _ Hb'. assert (backend' = backend) as -> by congruence.
      fold ol. by intros ->.
Qed.

Lemma C10_export_directory_created_witness :
  let o := main example_env example_conf example_root (Some example_export) false paths_None
             None empty_world in
  let p := ["outputs"; "feats-example.h5"] in
  (∃ tr, trace o = Mkdir (parent p) :: tr) ∧
  dirs (final o) = dirs empty_world ∪ list_to_set (ancestors (parent p)) ∧
  (parent p ≠ [] → parent p ∈ dirs (final o)) ∧
  (∀ v, returned o = Ok v → v = p).
Proof.
  intros o p.
  destruct (C10_export_directory_created example_env example_conf example_root
              (Some example_export) false paths_None None empty_world
              {| self_conf := SimpleNamespace (preprocessing example_conf);
                 self_root := example_root; self_names := ["a.jpg"; "b.png"] |} p)
    as (H1 & H2 & H3 & H4 & _).
  - vm_compute. reflexivity.
  - reflexivity.
  - repeat constructor.
  - by split_and!.
Defined.

(** On the example, the first run goes through the loop and the second
    skips the extraction; both return the same path. *)
Lemma C10_example_both_cases :
  let first := main example_env example_conf example_root (Some example_export) false paths_None
                 None empty_world in
  let second := main example_env example_conf example_root (Some example_export) false
                  paths_None None (final first) in
  returned first = Ok ["outputs"; "feats-example.h5"] ∧
  forward_calls (trace first) = ["a.jpg"; "b.png"] ∧
  returned second = Ok ["outputs"; "feats-example.h5"] ∧
  forward_calls (trace second) = [].
Proof. vm_compute. done. Qed.

(** ** The resolved names *)

Lemma elem_of_matches E root conf rel :
  rel ∈ matches E root conf ↔ ∃ g, g ∈ globs conf ∧ rel ∈ glob E root ("**/" +:+ g).
Proof.
  unfold matches. rewrite list_elem_of_In, in_flat_map.
  split; intros (g & Hg & Hrel); exists g; by rewrite <- ?list_elem_of_In in *.
Qed.

(** C5, as the code has it.  Glob discovery yields the distinct matches
    sorted in the order of paths (component by component), so the names
    are distinct root-relative POSIX strings and do not depend on the
    order in which the file system lists the matches; an explicit list,
    in memory or from a list file, is kept as given, in its order and
    with its duplicates, and is only checked for existence. *)
Theorem C5_path_resolution E root conf :
  (∀ rel, rel ∈ matches E root (SimpleNamespace conf) → relative_path rel) →
  let found := matches E root (SimpleNamespace conf) in
  let rels := sorted (list_set found) in
  (found ≠ [] →
   ImageDataset_init E root conf paths_None =
     Ok {| self_conf := SimpleNamespace conf; self_root := root;
           self_names := as_posix <$> rels |}) ∧
  NoDup rels ∧
  StronglySorted path_le rels ∧
  (∀ rel, rel ∈ rels ↔ rel ∈ found) ∧
  NoDup (as_posix <$> rels) ∧
  (∀ E', (∀ pattern rel, rel ∈ glob E' root pattern ↔ rel ∈ glob E root pattern) →
         ImageDataset_init E' root conf paths_None = ImageDataset_init E root conf paths_None) ∧
  (∀ l, ImageDataset_init E root conf (paths_iterable l) =
          (check_exists E root (name_of <$> l);;
           Ok {| self_conf := SimpleNamespace conf; self_root := root;
                 self_names := name_of <$> l |})) ∧
  (∀ f, ImageDataset_init E root conf (paths_file f) =
          (names ← parse_image_lists E f;
           check_exists E root names;;
           Ok {| self_conf := SimpleNamespace conf; self_root := root; self_names := names |})).
Proof.
  intros Hrel found rels. split_and!.
  - intros Hne. rewrite ImageDataset_init_glob. by rewrite decide_False.
  - apply sorted_list_set_NoDup.
  - apply sorted_StronglySorted.
  - apply elem_of_sorted_list_set.
  - apply NoDup_fmap_2_strong; [|apply sorted_list_set_NoDup].
    intros p q Hp Hq. apply as_posix_inj; apply Hrel; by apply (elem_of_sorted_list_set found).
  - intros E' Hsame. rewrite !ImageDataset_init_glob.
    assert (Hel : ∀ rel, rel ∈ matches E' root (SimpleNamespace conf) ↔ rel ∈ found).
    { intros rel. unfold found. rewrite !elem_of_matches. by setoid_rewrite Hsame. }
    rewrite (sorted_order_irrelevant _ _ (list_set_Permutation _ _ Hel)). fold found.
    destruct (decide (found = [])) as [Hf|Hf].
    + rewrite decide_True; [done|]. destruct (matches E' root _) as [|x l]; [done|].
      specialize (Hel x). rewrite Hf in Hel. set_solver.
    + rewrite decide_False; [done|]. intros HE'. rewrite HE' in Hel.
      destruct found as [|x l]; [done|]. specialize (Hel x). set_solver.
  - intros l. apply ImageDataset_init_iterable.
  - intros f. apply ImageDataset_init_file.
Qed.

Lemma C5_path_resolution_witness :
  ImageDataset_init example_env example_root (preprocessing example_conf) paths_None =
    Ok {| self_conf := SimpleNamespace (preprocessing example_conf); self_root := example_root;
          self_names := ["a.jpg"; "b.png"] |}
  ∧ NoDup (as_posix <$> sorted (list_set
             (matches example_env example_root (SimpleNamespace (preprocessing example_conf))))).
Proof.
  destruct (C5_path_resolution example_env example_root (preprocessing example_conf))
    as (H1 & _ & _ & _ & H5 & _).
  - intros rel Hin. vm_compute in Hin.
    repeat (apply elem_of_cons in Hin as [->|Hin]; [by repeat constructor|]).
    by apply elem_of_nil in Hin.
  - split; [|exact H5]. rewrite H1; [reflexivity|discriminate].
Defined.

(** An explicit list that names an image twice is resolved to a
    sequence with a duplicate. *)
Lemma C5_explicit_list_keeps_duplicates :
  self_names <$> ImageDataset_init example_env example_root (preprocessing example_conf)
                   (paths_iterable [A_str "a.jpg"; A_str "a.jpg"]) = Ok ["a.jpg"; "a.jpg"]
  ∧ ¬ NoDup ["a.jpg"; "a.jpg"].
Proof.
  split; [reflexivity|]. intros Hnd. apply NoDup_cons in Hnd as [Hnd _]. set_solver.
Qed.

(** The order of paths is not the order of their names as strings: a
    directory [a] comes before a file [a-b.jpg], although the string
    ["a-b.jpg"] is smaller than the string ["a/b.jpg"]. *)
Lemma C5_path_order_is_not_string_order :
  as_posix <$> sorted (list_set [["a-b.jpg"]; ["a"; "b.jpg"]]) = ["a/b.jpg"; "a-b.jpg"]
  ∧ String.compare "a-b.jpg" "a/b.jpg" = Lt.
Proof. split; reflexivity. Qed.

(** ** Half precision *)

Lemma dtype_of_astype t a : dtype_of (astype t a) = Float t.
Proof. by destruct a. Qed.

Lemma shape_of_astype t a : shape_of (astype t a) = shape_of a.
Proof. by destruct a. Qed.

(** C6, as the code has it.  With [as_half], exactly the [float32]
    fields are converted to [float16], with their shape kept and their
    elements rounded; every other field, an integer one such as
    [image_size] but also a [float64] or a [float16] one, is stored as it
    is.  Without [as_half] nothing changes. *)
Theorem C6_downcast (pred : prediction) :
  (∀ k v, pred !! k = Some v → dtype_of v = Float float32 →
     downcast true pred !! k = Some (astype float16 v) ∧
     dtype_of (astype float16 v) = Float float16 ∧
     shape_of (astype float16 v) = shape_of v) ∧
  (∀ k v, pred !! k = Some v → dtype_of v ≠ Float float32 → downcast true pred !! k = Some v) ∧
  (∀ k sh zs, pred !! k = Some (IntArray sh zs) → downcast true pred !! k = Some (IntArray sh zs)) ∧
  dom (downcast true pred) = dom pred ∧
  downcast false pred = pred.
Proof.
  unfold downcast. split_and!.
  - intros k v Hk Hv. rewrite lookup_fmap, Hk. simpl.
    rewrite decide_True by (by rewrite Hv). by rewrite dtype_of_astype, shape_of_astype.
  - intros k v Hk Hv. rewrite lookup_fmap, Hk. simpl.
    rewrite decide_False; [done|]. by intros [? _].
  - intros k sh zs Hk. rewrite lookup_fmap, Hk. done.
  - apply dom_fmap_L.
  - done.
Qed.

Lemma C6_downcast_witness :
  downcast true (<["scores" := FloatArray float32 [1]%nat [half float32]]>
                 (<["image_size" := IntArray [2]%nat [100; 50]]> ∅)) !! "scores" =
    Some (FloatArray float16 [1]%nat [half float16])
  ∧ downcast true (<["scores" := FloatArray float32 [1]%nat [half float32]]>
                   (<["image_size" := IntArray [2]%nat [100; 50]]> ∅)) !! "image_size" =
    Some (IntArray [2]%nat [100; 50]).
Proof.
  destruct (C6_downcast (<["scores" := FloatArray float32 [1]%nat [half float32]]>
                         (<["image_size" := IntArray [2]%nat [100; 50]]> ∅)))
    as (H1 & _ & H3 & _).
  split.
  - destruct (H1 "scores" (FloatArray float32 [1]%nat [half float32])) as (-> & _);
      reflexivity.
  - apply H3. reflexivity.
Defined.

(** A [float64] field stays [float64] in the stored result although half
    precision was requested. *)
Lemma C6_float64_field_is_kept :
  dtype_of <$> (downcast true
                  (<["global_descriptor" := FloatArray float64 [2]%nat
                                              [half float64; of_int float64 1]]> ∅)
                  !! "global_descriptor") = Some (Float float64).
Proof. reflexivity. Qed.

(** ** Rescaling the keypoints *)

Lemma list_pair_ind {A} (P : list A → Prop) :
  P [] → (∀ x, P [x]) → (∀ x y l, P l → P (x :: y :: l)) → ∀ l, P l.
Proof.
  intros H0 H1 H2 l. cut (P l ∧ ∀ x, P (x :: l)); [tauto|].
  induction l as [|y l [IH1 IH2]]; split; auto.
Qed.

Lemma scale_columns_lookup t sx sy xs i :
  scale_columns t sx sy xs !! i =
    (λ x, fmul t x (if Nat.even i then sx else sy)) <$> xs !! i.
Proof.
  revert i. induction xs as [|x|x y xs IH] using list_pair_ind; intros i.
  - done.
  - by destruct i as [|[|i]].
  - destruct i as [|[|i]]; [done..|]. simpl scale_columns.
    rewrite !lookup_cons. simpl. apply IH.
Qed.

Lemma length_scale_columns t sx sy xs : length (scale_columns t sx sy xs) = length xs.
Proof.
  induction xs as [|x|x y xs IH] using list_pair_ind; [done..|]. simpl. by rewrite IH.
Qed.

(** Line 190 on an array of rows of two coordinates. *)
Lemma rescale_keypoints_rows t outer xs sx sy :
  outer ≠ [] →
  let rt := promote t float32 in
  rescale_keypoints (FloatArray t (outer ++ [2%nat]) xs) (sx, sy) =
    Ok (FloatArray rt (outer ++ [2%nat])
          ((λ y, fsub rt y (half rt)) <$>
           scale_columns rt (convert_from float32 rt sx) (convert_from float32 rt sy)
             (convert_from t rt <$> ((λ x, fadd t x (half t)) <$> xs)))).
Proof.
  intros Houter rt. unfold rescale_keypoints, mul_scales, add_half. simpl.
  rewrite rev_app_distr. simpl.
  destruct (rev outer) as [|n outer'] eqn:Hrev.
  { apply (f_equal (@rev nat)) in Hrev. rewrite rev_involutive in Hrev. done. }
  done.
Qed.

(** C2. Keypoint rescaling: the record that leaves lines 186-190 has an
    [image_size] field holding the original (width, height), read before
    any resizing; when the model returned keypoints as rows (x, y), every
    coordinate [k] becomes [(k + .5) * scale - .5], where the scale of the
    x column is the original width over the processed width and that of
    the y column the original height over the processed height, each
    quotient rounded to [float32]; the arithmetic is that of the dtype
    numpy promotes to ([float32] for [float32] keypoints).  That record,
    downcast when half precision is requested, is the group written to
    the store. *)
Theorem C2_keypoint_rescaling (d : data) (pred : prediction) :
  let W := (data_original_size d).1 in
  let H := (data_original_size d).2 in
  let w := (data_image d).2 in
  let h := (data_image d).1.2 in
  let sx := convert float32 (fdiv float64 (of_int float64 W) (of_int float64 w)) in
  let sy := convert float32 (fdiv float64 (of_int float64 H) (of_int float64 h)) in
  let image_size := IntArray [2%nat] [W; H] in
  (pred !! "keypoints" = None → rescale d pred = Ok (<["image_size" := image_size]> pred)) ∧
  (∀ t outer xs,
     outer ≠ [] →
     pred !! "keypoints" = Some (FloatArray t (outer ++ [2%nat]) xs) →
     let rt := promote t float32 in
     ∃ ys,
       rescale d pred =
         Ok (<["keypoints" := FloatArray rt (outer ++ [2%nat]) ys]>
             (<["image_size" := image_size]> pred)) ∧
       length ys = length xs ∧
       ∀ i x, xs !! i = Some x →
         ys !! i = Some (fsub rt
                           (fmul rt (convert_from t rt (fadd t x (half t)))
                              (convert_from float32 rt (if Nat.even i then sx else sy)))
                           (half rt))) ∧
  (∀ n xs i x,
     pred !! "keypoints" = Some (FloatArray float32 [n; 2%nat] xs) →
     xs !! i = Some x →
     ∃ ys, rescale d pred =
             Ok (<["keypoints" := FloatArray float32 [n; 2%nat] ys]>
                 (<["image_size" := image_size]> pred)) ∧
           ys !! i = Some (fsub float32
                             (fmul float32 (fadd float32 x (half float32))
                                (if Nat.even i then sx else sy))
                             (half float32))) ∧
  (∀ pred', rescale d pred = Ok pred' → pred' !! "image_size" = Some image_size) ∧
  (∀ backend as_half pred',
     backend d = Ok pred → rescale d pred = Ok pred' →
     processed backend as_half d = Ok (downcast as_half pred') ∧
     downcast false pred' = pred') ∧
  (∀ E loader name,
     load E loader name = Ok d →
     ∃ img, read_image E (self_root loader) name (grayscale (self_conf loader)) = Ok img ∧
            (W, H) = (width img, height img)).
Proof.
  intros W H w h sx sy image_size.
  assert (Hkp : (<["image_size" := image_size]> pred) !! "keypoints" = pred !! "keypoints").
  { by rewrite lookup_insert_ne. }
  assert (Hrows : ∀ t outer xs,
     outer ≠ [] →
     pred !! "keypoints" = Some (FloatArray t (outer ++ [2%nat]) xs) →
     let rt := promote t float32 in
     ∃ ys,
       rescale d pred =
         Ok (<["keypoints" := FloatArray rt (outer ++ [2%nat]) ys]>
             (<["image_size" := image_size]> pred)) ∧
       length ys = length xs ∧
       ∀ i x, xs !! i = Some x →
         ys !! i = Some (fsub rt
                           (fmul rt (convert_from t rt (fadd t x (half t)))
                              (convert_from float32 rt (if Nat.even i then sx else sy)))
                           (half rt))).
  { intros t outer xs Houter Hk rt. unfold rescale. fold W H image_size.
    rewrite Hkp, Hk. destruct (data_image d) as [[c h'] w'] eqn:Himg.
    unfold scale_of. simpl in w, h. subst w h. fold sx sy.
    rewrite (rescale_keypoints_rows t outer xs _ _ Houter). fold rt. simpl.
    eexists. split; [done|]. split.
    - by rewrite length_fmap, length_scale_columns, !length_fmap.
    - intros i x Hx. rewrite list_lookup_fmap, scale_columns_lookup, !list_lookup_fmap, Hx.
      simpl. by destruct (Nat.even i). }
  split_and!.
  - intros Hnone. unfold rescale. fold W H image_size. by rewrite Hkp, Hnone.
  - exact Hrows.
  - intros n xs i x Hk Hx.
    destruct (Hrows float32 [n] xs) as (ys & Hr & _ & Hys); [done..|].
    exists ys. split; [done|]. by apply Hys.
  - intros pred'. unfold rescale. fold W H image_size. rewrite Hkp.
    destruct (pred !! "keypoints") as [kp|].
    + destruct (data_image d) as [[c h'] w'].
      destruct (rescale_keypoints _ _) as [kp'|]; simpl; [|done].
      intros [= <-]. rewrite lookup_insert_ne by done. apply lookup_insert_eq.
    + intros [= <-]. apply lookup_insert_eq.
  - intros backend as_half pred' Hb Hr. unfold processed. rewrite Hb. simpl. by rewrite Hr.
  - intros E loader name. unfold load.
    destruct (read_image _ _ _ _) as [img|]; simpl; [|done].
    destruct (resize _ _) as [img'|]; simpl; [|done].
    intros [= <-]. by exists img.
Qed.

Lemma C2_keypoint_rescaling_witness :
  let d := {| data_name := "a.jpg"; data_image := (1, 40, 80); data_original_size := (100, 50) |} in
  ∃ ys,
    rescale d (<["keypoints" := example_keypoints]> ∅) =
      Ok (<["keypoints" := FloatArray float32 [2; 2]%nat ys]>
          (<["image_size" := IntArray [2%nat] [100; 50]]>
           (<["keypoints" := example_keypoints]> ∅))) ∧
    ys !! 0%nat = Some (S754_finite false 13238272 (-20)).
Proof.
  intros d.
  destruct (C2_keypoint_rescaling d (<["keypoints" := example_keypoints]> ∅))
    as (_ & _ & H3 & _).
  destruct (H3 2%nat [of_int float32 10; of_int float32 20; of_int float32 3; of_int float32 4]
              0%nat (of_int float32 10)) as (ys & Hr & Hy); [reflexivity..|].
  exists ys. split; [exact Hr|]. rewrite Hy. vm_compute. reflexivity.
Defined.

(** ** More on the loop: failures, new groups, the skip set *)

Section loop_more.
Context (backend : data → result prediction) (feature_path : path) (as_half : bool).

Local Abbreviation step_ := (step backend feature_path as_half).
Local Abbreviation loop_ := (loop backend feature_path as_half).

Lemma writable_write_group w name g : writable (write_group w feature_path name g) feature_path.
Proof. left. unfold write_group. simpl. rewrite lookup_insert_eq. by eexists. Qed.

(** When every element loads and is processed without an exception and
    the feature file can be written, the only way the loop can fail is
    the creation of a group that exists; up to the element that fails,
    it ran as the loop over the elements before it. *)
Lemma loop_healthy skip_names items w :
  writable w feature_path →
  Forall (λ item, ∃ d g, item = Ok d ∧ processed backend as_half d = Ok g) items →
  let o := loop_ skip_names items w in
  returned o = Ok tt ∨
  ∃ k d, items !! k = Some (Ok d) ∧ (data_name d ∉ skip_names) ∧
    returned o = Raise (ValueError_group_exists (data_name d)) ∧
    returned (loop_ skip_names (take k items) w) = Ok tt ∧
    final o = final (loop_ skip_names (take k items) w) ∧
    trace o = trace (loop_ skip_names (take k items) w) ++ [Forward (data_name d)] ∧
    (data_name d ∈ keys (final o) feature_path).
Proof.
  revert w. induction items as [|item items IH]; intros w Hw Hitems; cbv zeta; [by left|].
  apply Forall_cons in Hitems as [(d & g & -> & Hg) Hitems].
  rewrite loop_cons_Ok. cbv zeta.
  destruct (step_cases backend feature_path as_half skip_names d w)
    as [(Hs & Ho)|[(Hs & e & Ho & He)|(Hs & Hk & Hf & g' & Hg' & Ho)]];
    rewrite Ho; cbn [returned final trace].
  - destruct (IH w Hw Hitems) as [IH'|(k & d' & Hk & Hd' & Hr & Hrk & Hfk & Htk & Hkk)].
    + by left.
    + right. exists (S k), d'. rewrite firstn_cons, loop_cons_Ok, Ho.
      cbn [returned final trace]. by split_and!.
  - right. destruct He as [He|[_ [[-> Hin]|[-> [Hnone Hd]]]]].
    + congruence.
    + exists 0%nat, d. by split_and!.
    + destruct Hw as [[? ?]|[? ?]]; [congruence|]. by destruct Hd.
  - destruct (IH _ (writable_write_group w (data_name d) g') Hitems)
      as [IH'|(k & d' & Hk' & Hd' & Hr & Hrk & Hfk & Htk & Hkk)].
    + by left.
    + right. exists (S k), d'. rewrite firstn_cons, loop_cons_Ok, Ho.
      cbn [returned final trace]. split_and!; try done.
      rewrite Htk. by rewrite !app_assoc.
Qed.


End loop_more.

Lemma filter_NoDup_lookup {A} (P : A → Prop) `{∀ x, Decision (P x)} (l : list A) i j x :
  NoDup (filter P l) → P x → l !! i = Some x → l !! j = Some x → i = j.
Proof.
  revert i j. induction l as [|y l IH]; intros i j Hnd HP Hi Hj; [done|].
  assert (Hin : ∀ k, l !! k = Some x → x ∈ filter P l).
  { intros k Hk. apply list_elem_of_filter. split; [done|]. by eapply list_elem_of_lookup_2. }
  destruct i as [|i], j as [|j]; simpl in *; try done.
  - injection Hi as ->. rewrite filter_cons_True in Hnd by done.
    apply NoDup_cons in Hnd as [Hnd _]. destruct Hnd. by eapply Hin.
  - injection Hj as ->. rewrite filter_cons_True in Hnd by done.
    apply NoDup_cons in Hnd as [Hnd _]. destruct Hnd. by eapply Hin.
  - f_equal. apply IH; try done.
    destruct (decide (P y)); [rewrite filter_cons_True in Hnd by done
                             |rewrite filter_cons_False in Hnd by done]; [|done].
    by apply NoDup_cons in Hnd as [_ Hnd].
Qed.

Lemma main_upto_blocked upto E conf image_dir export_dir as_half image_list feature_path
    w loader p :
  ImageDataset_init E image_dir (preprocessing conf) image_list = Ok loader →
  the_feature_path feature_path export_dir conf = Ok p →
  ¬ Forall (λ a, files w !! a = None) (ancestors (parent p)) →
  main_upto upto E conf image_dir export_dir as_half image_list feature_path w =
    Build_outcome (Raise (OSError (parent p))) w [].
Proof.
  intros Hinit Hp Hmk. rewrite (main_upto_extraction _ _ _ _ _ _ _ _ _ loader p) by done.
  unfold extraction. rewrite run_bind_unfold, mkdir_Raise by done. done.
Qed.

(** ** A name listed twice *)

Lemma Forall_load_items E loader (P : data → Prop) l :
  Forall (λ n, ∃ d, load E loader n = Ok d ∧ P d) l →
  Forall (λ item, ∃ d, item = Ok d ∧ P d) (load E loader <$> l).
Proof. intros H. by apply Forall_fmap. Qed.

Lemma names_of_load_take E loader l k :
  Forall (λ item, ∃ d, item = Ok d) (load E loader <$> l) →
  names_of (take k (load E loader <$> l)) = take k l.
Proof.
  intros H. rewrite <- fmap_take. apply names_of_load.
  rewrite fmap_take. by apply Forall_take.
Qed.

(** C9. An explicit in-memory list is not deduplicated and the skip set
    is the one read before the loop.  So when a name that the store does
    not hold is listed twice, and nothing else fails (every listed image
    loads, the model and the postprocessing return, the feature file can
    be written), the run raises at a second occurrence of a new name:
    the model is called on it again and [create_group] finds the group
    that the first occurrence wrote in this very run.  The name that
    fails is the first one to recur, at or before the second occurrence of
    the given name. *)
Theorem C9_duplicate_name_fails E conf image_dir export_dir as_half l feature_path w loader p
    backend dup i j :
  ImageDataset_init E image_dir (preprocessing conf) (paths_iterable l) = Ok loader →
  the_feature_path feature_path export_dir conf = Ok p →
  Forall (λ a, files w !! a = None) (ancestors (parent p)) →
  writable w p →
  the_backend E conf = Ok backend →
  Forall (λ n, ∃ d, load E loader n = Ok d ∧ ∃ g, processed backend as_half d = Ok g)
    (self_names loader) →
  i ≠ j →
  (name_of <$> l) !! i = Some dup →
  (name_of <$> l) !! j = Some dup →
  (dup ∉ keys w p) →
  let o := main E conf image_dir export_dir as_half (paths_iterable l) feature_path w in
  self_names loader = name_of <$> l ∧
  ∃ k n,
    (k ≤ i `max` j)%nat ∧
    self_names loader !! k = Some n ∧
    (n ∈ take k (self_names loader)) ∧
    (n ∉ keys w p) ∧
    returned o = Raise (ValueError_group_exists n) ∧
    is_Some (stored (final o) p n) ∧
    (CreateGroup p n ∈ trace o) ∧
    trace o = Mkdir (parent p) :: listing w p ++ LoadModel (name (model conf)) ::
              writes p (filter (.∉ keys w p) (take k (self_names loader))) ++ [Forward n].
Proof.
  intros Hinit Hp Hmk Hw Hb Hload Hij Hi Hj Hname o.
  assert (Hnames : self_names loader = name_of <$> l).
  { rewrite ImageDataset_init_iterable in Hinit.
    destruct (check_exists E image_dir (name_of <$> l)) as [[]|]; [|done].
    by injection Hinit as <-. }
  split; [done|]. rewrite <- Hnames in Hi, Hj.
  set (names := self_names loader) in *.
  set (w1 := with_dirs w (parent p)).
  assert (Hitems : Forall (λ item, ∃ d, item = Ok d ∧ ∃ g, processed backend as_half d = Ok g)
                     (load E loader <$> names)) by by apply Forall_load_items.
  assert (Hoks : Forall (λ item, ∃ d, item = Ok d) (load E loader <$> names)).
  { eapply Forall_impl; [exact Hitems|]. intros item (d & -> & _). by exists d. }
  assert (Hitems' : Forall (λ item, ∃ d g, item = Ok d ∧ processed backend as_half d = Ok g)
                      (load E loader <$> names)).
  { eapply Forall_impl; [exact Hitems|]. intros item (d & -> & g & Hg). by exists d, g. }
  assert (Hnsub : ¬ list_to_set names ⊆ keys w p).
  { intros Hsub. apply Hname, Hsub, elem_of_list_to_set. by eapply list_elem_of_lookup_2. }
  subst o. unfold main.
  destruct (main_upto_resolved id E conf image_dir export_dir as_half (paths_iterable l)
              feature_path w loader p Hinit Hp Hmk)
    as [(Hw' & _)|[(_ & ? & _)|[(_ & _ & e & He & _)|(_ & _ & backend' & Hb' & Ho)]]];
    [by rewrite writable_with_dirs in Hw'|done|congruence|].
  assert (backend' = backend) as -> by congruence.
  cbv zeta in Ho. rewrite Ho. clear Ho. unfold id. cbn [returned final trace].
  rewrite DataLoader_names. fold names w1.
  destruct (loop_healthy backend p as_half (keys w p) (load E loader <$> names) w1)
    as [Hok|(k & d & Hk & Hd & Hr & Hrk & Hfk & Htk & Hkk)];
    [by apply writable_with_dirs|done| |].
  { apply loop_Ok in Hok as (_ & Hnd & _). rewrite names_of_load in Hnd by done.
    destruct Hij. by apply (filter_NoDup_lookup (.∉ keys w p) names i j dup). }
  rewrite list_lookup_fmap in Hk.
  destruct (names !! k) as [n|] eqn:Hn; [|done]. injection Hk as Hk.
  apply load_name in Hk as Hdn. rewrite Hdn in *. clear Hdn d Hk.
  destruct (loop_Ok backend p as_half (keys w p) (take k (load E loader <$> names)) w1 Hrk)
    as (_ & Hnd & Htr & Hkeys).
  rewrite names_of_load_take in Hnd, Htr, Hkeys by done.
  assert (Hin : n ∈ filter (.∉ keys w p) (take k names)).
  { rewrite Hfk, Hkeys in Hkk. apply elem_of_union in Hkk as [Hkk|Hkk]; [done|].
    by apply elem_of_list_to_set in Hkk. }
  exists k, n. rewrite Hr, Htk, Htr. split_and!; try done.
  - destruct (decide (k ≤ i `max` j)%nat) as [|Hlt]; [done|]. destruct Hij.
    apply (filter_NoDup_lookup (.∉ keys w p) (take k names) i j dup); try done.
    + rewrite lookup_take_lt by lia. done.
    + rewrite lookup_take_lt by lia. done.
  - by apply list_elem_of_filter in Hin as [_ ?].
  - by apply elem_of_keys.
  - apply elem_of_cons. right. apply elem_of_app. right. apply elem_of_cons. right.
    apply elem_of_app. left. by apply elem_of_writes.
Qed.

Lemma C9_duplicate_name_fails_witness :
  let o := main example_env example_conf example_root (Some example_export) false
             (paths_iterable [A_str "a.jpg"; A_str "a.jpg"]) None empty_world in
  ∃ n, returned o = Raise (ValueError_group_exists n) ∧
       (CreateGroup ["outputs"; "feats-example.h5"] n ∈ trace o).
Proof.
  intros o.
  destruct (C9_duplicate_name_fails example_env example_conf example_root (Some example_export)
              false [A_str "a.jpg"; A_str "a.jpg"] None empty_world
              {| self_conf := SimpleNamespace (preprocessing example_conf);
                 self_root := example_root; self_names := ["a.jpg"; "a.jpg"] |}
              ["outputs"; "feats-example.h5"] example_backend "a.jpg" 0 1)
    as (_ & k & n & _ & _ & _ & _ & Hr & _ & Hc & _).
  - reflexivity.
  - reflexivity.
  - repeat constructor.
  - right. split; [|done]. apply not_elem_of_empty.
  - reflexivity.
  - repeat constructor; (eexists; split; [reflexivity|]; eexists; reflexivity).
  - done.
  - reflexivity.
  - reflexivity.
  - unfold keys. simpl. rewrite lookup_empty. apply not_elem_of_empty.
  - exists n. split; [exact Hr|exact Hc].
Defined.

(** ** Resuming *)




(** What a run of [main] that returns has done. *)
Lemma main_upto_Ok upto E conf image_dir export_dir as_half image_list feature_path w v :
  let o := main_upto upto E conf image_dir export_dir as_half image_list feature_path w in
  returned o = Ok v →
  ∃ loader,
    ImageDataset_init E image_dir (preprocessing conf) image_list = Ok loader ∧
    the_feature_path feature_path export_dir conf = Ok v ∧
    Forall (λ a, files w !! a = None) (ancestors (parent v)) ∧
    writable w v ∧
    let w1 := with_dirs w (parent v) in
    (list_to_set (self_names loader) ⊆ keys w v ∧
     o = Build_outcome (Ok v) w1 (Mkdir (parent v) :: listing w v)
     ∨ ¬ list_to_set (self_names loader) ⊆ keys w v ∧
       ∃ backend, the_backend E conf = Ok backend ∧
         let ol := loop backend v as_half (keys w v) (upto (DataLoader E loader)) w1 in
         returned ol = Ok tt ∧
         o = Build_outcome (Ok v) (final ol)
               (Mkdir (parent v) :: listing w v ++
                LoadModel (name (model conf)) :: trace ol)).
Proof.
  intros o Hret. subst o.
  destruct (ImageDataset_init E image_dir (preprocessing conf) image_list) as [loader|e]
    eqn:Hinit.
  2:{ by rewrite (main_upto_init_Raise _ _ _ _ _ _ _ _ _ _ Hinit) in Hret. }
  destruct (the_feature_path feature_path export_dir conf) as [p|e] eqn:Hp.
  2:{ by rewrite (main_upto_no_path _ _ _ _ _ _ _ _ _ _ _ Hinit Hp) in Hret. }
  destruct (decide (Forall (λ a, files w !! a = None) (ancestors (parent p)))) as [Hmk|Hmk].
  2:{ by rewrite (main_upto_blocked _ _ _ _ _ _ _ _ _ _ _ Hinit Hp Hmk) in Hret. }
  destruct (main_upto_resolved upto E conf image_dir export_dir as_half image_list feature_path
              w loader p Hinit Hp Hmk)
    as [(Hw & Ho)|[(Hw & Hsub & Ho)|[(Hw & Hsub & e & He & Ho)
       |(Hw & Hsub & backend & Hb & Ho)]]];
    cbv zeta in Ho; rewrite Ho in Hret |- *; cbn [returned] in Hret; try done;
    rewrite writable_with_dirs in Hw.
  - injection Hret as <-. exists loader. split_and!; try done. by left.
  - destruct (returned (loop _ _ _ _ _ _)) as [[]|] eqn:Hol; [|done].
    injection Hret as <-. exists loader. split_and!; try done. right. split; [done|].
    exists backend. split; [done|]. cbv zeta. by rewrite Hol.
Qed.









(** ** What a run never does *)



(** ** Runs that return *)





(** On the example, the run killed after one image has called the model
    on [a.jpg] only, and the second run calls it on [b.png] only. *)
Lemma killed_run_example :
  let ok := main_killed_after 1 example_env example_conf example_root (Some example_export)
              false paths_None None empty_world in
  let o2 := main example_env example_conf example_root (Some example_export) false paths_None
              None (final ok) in
  forward_calls (trace ok) = ["a.jpg"] ∧ forward_calls (trace o2) = ["b.png"].
Proof. vm_compute. done. Qed.




(** ** Runs that raise in the loop *)






(** On that example the first image is stored and the second is not. *)
Lemma failed_run_example :
  let o := main flaky_env example_conf example_root (Some example_export) false paths_None None
             empty_world in
  returned o = Raise (External "out of memory") ∧
  keys (final o) ["outputs"; "feats-example.h5"] = {["a.jpg"]} ∧
  forward_calls (trace o) = ["a.jpg"; "b.png"].
Proof. vm_compute. done. Qed.

(** ** More on path resolution *)

Lemma check_exists_list_find E root names :
  check_exists E root names =
    match list_find (λ n, path_exists E root n = false) names with
    | Some (_, missing) => Raise (ValueError_missing_image missing root)
    | None => Ok tt
    end.
Proof.
  induction names as [|n names IH]; [done|]. simpl.
  destruct (path_exists E root n) eqn:Hn.
  - rewrite decide_False by done. rewrite IH.
    by destruct (list_find _ names) as [[i m]|].
  - by rewrite decide_True.
Qed.

(** An explicit list is resolved to its names in the order given, unless
    one of them has no file under the root: then the error names the
    first such name of the list. *)
Theorem explicit_list_first_missing E root conf l :
  ImageDataset_init E root conf (paths_iterable l) =
    match list_find (λ n, path_exists E root n = false) (name_of <$> l) with
    | Some (_, missing) => Raise (ValueError_missing_image missing root)
    | None => Ok {| self_conf := SimpleNamespace conf; self_root := root;
                    self_names := name_of <$> l |}
    end.
Proof.
  rewrite ImageDataset_init_iterable, check_exists_list_find.
  by destruct (list_find _ _) as [[i m]|].
Qed.

(** Glob discovery is canonical: when every match is a relative path,
    the names are pairwise distinct, they are exactly the POSIX names of
    the matches, and another listing of the same matches by the file
    system (in another order, or with repetitions across patterns) gives
    the same dataset. *)
Theorem glob_discovery_is_canonical E root conf :
  (∀ rel, rel ∈ matches E root (SimpleNamespace conf) → relative_path rel) →
  matches E root (SimpleNamespace conf) ≠ [] →
  ∃ loader,
    ImageDataset_init E root conf paths_None = Ok loader ∧
    NoDup (self_names loader) ∧
    (∀ name, name ∈ self_names loader ↔
             ∃ rel, rel ∈ matches E root (SimpleNamespace conf) ∧ name = as_posix rel) ∧
    ∀ E', (∀ pattern rel, rel ∈ glob E' root pattern ↔ rel ∈ glob E root pattern) →
          ImageDataset_init E' root conf paths_None = Ok loader.
Proof.
  intros Hrel Hne. eexists. split_and!.
  - rewrite ImageDataset_init_glob. by rewrite decide_False.
  - simpl. apply NoDup_fmap_2_strong; [|apply sorted_list_set_NoDup].
    intros x y Hx Hy.
    apply as_posix_inj; apply Hrel; by apply (elem_of_sorted_list_set (matches E root _)).
  - intros name. simpl. rewrite list_elem_of_fmap. split.
    + intros (rel & -> & Hin). exists rel. split; [|done].
      by apply (elem_of_sorted_list_set (matches E root _)).
    + intros (rel & Hin & ->). exists rel. split; [done|].
      by apply (elem_of_sorted_list_set (matches E root _)).
  - intros E' Hsame. rewrite ImageDataset_init_glob.
    assert (Hel : ∀ rel, rel ∈ matches E' root (SimpleNamespace conf) ↔
                         rel ∈ matches E root (SimpleNamespace conf)).
    { intros rel. rewrite !elem_of_matches. by setoid_rewrite Hsame. }
    rewrite decide_False.
    + by rewrite (sorted_order_irrelevant _ _ (list_set_Permutation _ _ Hel)).
    + intros HE'. rewrite HE' in Hel.
      destruct (matches E root (SimpleNamespace conf)) as [|x l]; [done|].
      specialize (Hel x). set_solver.
Qed.

Lemma glob_discovery_is_canonical_witness :
  ∃ loader,
    ImageDataset_init example_env example_root (preprocessing example_conf) paths_None =
      Ok loader ∧ NoDup (self_names loader).
Proof.
  destruct (glob_discovery_is_canonical example_env example_root (preprocessing example_conf))
    as (loader & Hinit & Hnd & _).
  - intros rel Hin. vm_compute in Hin.
    repeat (apply elem_of_cons in Hin as [->|Hin]; [by repeat constructor|]).
    by apply elem_of_nil in Hin.
  - discriminate.
  - exists loader. split; [exact Hinit|exact Hnd].
Defined.

(** ** More on the postprocessing *)

(** Downcasting twice is downcasting once: the fields that were
    converted are [float16] and are not converted again. *)
Theorem downcast_idempotent as_half (pred : prediction) :
  downcast as_half (downcast as_half pred) = downcast as_half pred.
Proof.
  destruct as_half; [|done]. unfold downcast. rewrite <- map_fmap_compose.
  apply map_fmap_ext. intros k v _. simpl.
  destruct (decide (dtype_of v = Float float32 ∧ dtype_of v ≠ Float float16)) as [Hv|Hv].
  - rewrite decide_False; [done|]. rewrite dtype_of_astype. by intros [? _].
  - by rewrite decide_False.
Qed.

(** Lines 186-190 leave every output of the model other than
    [keypoints] and [image_size] as it was, and replace an [image_size]
    that the model returned by the original size. *)
Theorem rescale_frame (d : data) (pred pred' : prediction) :
  rescale d pred = Ok pred' →
  dom pred' = {["image_size"]} ∪ dom pred ∧
  pred' !! "image_size" =
    Some (IntArray [2%nat] [(data_original_size d).1; (data_original_size d).2]) ∧
  ∀ k, k ≠ "keypoints" → k ≠ "image_size" → pred' !! k = pred !! k.
Proof.
  unfold rescale.
  destruct (<["image_size" := _]> pred !! "keypoints") as [kp|] eqn:Hkp.
  - destruct (data_image d) as [[c h] w].
    destruct (rescale_keypoints _ _) as [kp'|]; simpl; [|done]. intros [= <-].
    split_and!.
    + rewrite !dom_insert_L. apply elem_of_dom_2 in Hkp.
      rewrite dom_insert_L in Hkp. set_solver.
    + rewrite lookup_insert_ne by done. apply lookup_insert_eq.
    + intros k Hk1 Hk2. by rewrite !lookup_insert_ne.
  - intros [= <-]. split_and!.
    + by rewrite dom_insert_L.
    + apply lookup_insert_eq.
    + intros k Hk1 Hk2. by rewrite lookup_insert_ne.
Qed.

Lemma rescale_frame_witness :
  ∃ pred', rescale {| data_name := "a.jpg"; data_image := (1, 40, 80);
                      data_original_size := (100, 50) |}
             (<["scores" := FloatArray float32 [1]%nat [half float32]]> ∅) = Ok pred' ∧
           pred' !! "scores" = Some (FloatArray float32 [1]%nat [half float32]).
Proof.
  destruct (rescale _ _) as [pred'|e] eqn:Hr; [|discriminate Hr].
  exists pred'. split; [reflexivity|].
  destruct (rescale_frame _ _ _ Hr) as (_ & _ & H).
  rewrite H by discriminate. reflexivity.
Defined.

(** Keypoints whose last axis has a length other than 1 and 2 cannot be
    broadcast against the two scales: line 190 raises, so that the run
    stops after the call of the model with nothing written for that
    image. *)
Theorem keypoints_wrong_axis_raises backend feature_path as_half skip_names d w pred
    t outer n xs :
  n ≠ 1%nat → n ≠ 2%nat →
  (data_name d ∉ skip_names) →
  backend d = Ok pred →
  pred !! "keypoints" = Some (FloatArray t (outer ++ [n]) xs) →
  rescale d pred = Raise ValueError_broadcast ∧
  step backend feature_path as_half skip_names d w =
    Build_outcome (Raise ValueError_broadcast) w [Forward (data_name d)].
Proof.
  intros Hn1 Hn2 Hskip Hb Hk.
  assert (Hr : rescale d pred = Raise ValueError_broadcast).
  { unfold rescale. rewrite lookup_insert_ne by done. rewrite Hk.
    destruct (data_image d) as [[c h] w'].
    unfold rescale_keypoints, mul_scales, add_half. simpl. rewrite rev_app_distr. simpl.
    destruct n as [|[|[|n]]]; try done; by destruct (rev outer). }
  split; [done|]. rewrite step_fresh by done. unfold processed. rewrite Hb. simpl.
  by rewrite Hr.
Qed.

Lemma keypoints_wrong_axis_raises_witness :
  rescale {| data_name := "a.jpg"; data_image := (1, 40, 80); data_original_size := (100, 50) |}
    (<["keypoints" := FloatArray float32 [1; 3]%nat
                        [half float32; half float32; half float32]]> ∅) =
    Raise ValueError_broadcast.
Proof.
  apply (keypoints_wrong_axis_raises
           (λ _, Ok (<["keypoints" := FloatArray float32 [1; 3]%nat
                                        [half float32; half float32; half float32]]> ∅))
           ["outputs"; "feats-example.h5"] false ∅
           {| data_name := "a.jpg"; data_image := (1, 40, 80); data_original_size := (100, 50) |}
           empty_world _ float32 [1%nat] 3%nat [half float32; half float32; half float32]).
  - discriminate.
  - discriminate.
  - apply not_elem_of_empty.
  - reflexivity.
  - reflexivity.
Defined.

(** ** Failures before the extraction *)

(** Without an export directory and without a feature path, [main]
    raises the [TypeError] of [Path(None, ...)], but only once the image
    names are resolved: a failure of the resolution comes first, and
    nothing is created either way. *)
Theorem missing_export_dir_is_a_TypeError E conf image_dir as_half image_list w :
  main E conf image_dir None as_half image_list None w =
    Build_outcome
      (match ImageDataset_init E image_dir (preprocessing conf) image_list with
       | Ok _ => Raise TypeError
       | Raise e => Raise e
       end) w [].
Proof.
  unfold main.
  destruct (ImageDataset_init E image_dir (preprocessing conf) image_list) as [loader|e]
    eqn:Hinit.
  - by apply (main_upto_no_path _ _ _ _ _ _ _ _ _ loader).
  - by apply main_upto_init_Raise.
Qed.

(** A feature path that cannot be used fails the run before the model
    is loaded: with [OSError] on its parent and nothing created when an
    ancestor of the parent is a file, and with [OSError] on the path,
    after its parent directories were created, when the path is a
    directory. *)
Theorem unusable_feature_path_fails_early E conf image_dir export_dir as_half image_list
    feature_path w loader p :
  ImageDataset_init E image_dir (preprocessing conf) image_list = Ok loader →
  the_feature_path feature_path export_dir conf = Ok p →
  ¬ (Forall (λ a, files w !! a = None) (ancestors (parent p)) ∧
     writable (with_dirs w (parent p)) p) →
  main E conf image_dir export_dir as_half image_list feature_path w =
    if decide (Forall (λ a, files w !! a = None) (ancestors (parent p)))
    then Build_outcome (Raise (OSError p)) (with_dirs w (parent p)) [Mkdir (parent p)]
    else Build_outcome (Raise (OSError (parent p))) w [].
Proof.
  intros Hinit Hp Hno. unfold main.
  destruct (decide (Forall _ _)) as [Hmk|Hmk].
  - destruct (main_upto_resolved id E conf image_dir export_dir as_half image_list
                feature_path w loader p Hinit Hp Hmk) as [[_ Ho]|[[Hw _]|[[Hw _]|[Hw _]]]].
    + exact Ho.
    + exfalso. by apply Hno.
    + exfalso. by apply Hno.
    + exfalso. by apply Hno.
  - by apply (main_upto_blocked _ _ _ _ _ _ _ _ _ loader).
Qed.

Lemma unusable_feature_path_fails_early_witness :
  main example_env example_conf example_root (Some example_export) false paths_None None
    {| dirs := {[ ["outputs"; "feats-example.h5"] ]}; files := ∅ |} =
  Build_outcome (Raise (OSError ["outputs"; "feats-example.h5"]))
    (with_dirs {| dirs := {[ ["outputs"; "feats-example.h5"] ]}; files := ∅ |} ["outputs"])
    [Mkdir ["outputs"]].
Proof.
  rewrite (unusable_feature_path_fails_early example_env example_conf example_root
             (Some example_export) false paths_None None
             {| dirs := {[ ["outputs"; "feats-example.h5"] ]}; files := ∅ |}
             {| self_conf := SimpleNamespace (preprocessing example_conf);
                self_root := example_root; self_names := ["a.jpg"; "b.png"] |}
             ["outputs"; "feats-example.h5"]).
  - rewrite decide_True; [reflexivity|]. repeat constructor.
  - reflexivity.
  - reflexivity.
  - intros [_ [[fd Hfd]|[Hd _]]].
    + discriminate Hfd.
    + apply Hd. vm_compute. reflexivity.
Defined.

(** ** The command line *)

Lemma confs_get_Some key conf : confs_get key = Some conf → (key, conf) ∈ confs.
Proof.
  unfold confs_get.
  destruct (list_find _ confs) as [[i [k c]]|] eqn:Hf; [|done]. intros [= ->].
  apply list_find_Some in Hf as (Hi & Hk & _). simpl in Hk. subst k.
  by eapply list_elem_of_lookup_2.
Qed.

(** Run as a script, the extraction writes to
    [<export_dir>/<output>.h5] of the configuration chosen with [--conf]
    (by default [superpoint_aachen]) and discovers the images by glob:
    the options [--image_list] and [--feature_path] are parsed and have
    no effect. *)
Theorem script_ignores_list_and_feature_path E a w o :
  script E a w = Some o →
  (∀ image_list feature_path,
     script E {| arg_image_dir := arg_image_dir a; arg_export_dir := arg_export_dir a;
                 arg_conf := arg_conf a; arg_as_half := arg_as_half a;
                 arg_image_list := image_list; arg_feature_path := feature_path |} w =
       Some o) ∧
  ∃ image_dir export_dir conf,
    arg_image_dir a = Some image_dir ∧ arg_export_dir a = Some export_dir ∧
    ((default "superpoint_aachen" (arg_conf a), conf) ∈ confs) ∧
    o = main E conf image_dir (Some export_dir) (arg_as_half a) paths_None None w ∧
    ∀ p, returned o = Ok p → p = export_dir ++ [output conf +:+ ".h5"].
Proof.
  unfold script, parse_args. intros H.
  destruct (arg_image_dir a) as [image_dir|] eqn:Hi; [|discriminate H].
  destruct (arg_export_dir a) as [export_dir|] eqn:He; [|discriminate H].
  cbn [mbind option_bind] in H.
  destruct (confs_get (default "superpoint_aachen" (arg_conf a))) as [conf|] eqn:Hc;
    [|discriminate H].
  cbn [mbind option_bind args_conf args_image_dir args_export_dir args_as_half] in H.
  rewrite Hc in H. cbn [mbind option_bind] in H. injection H as H.
  split.
  - intros image_list feature_path.
    cbn [arg_image_dir arg_export_dir arg_conf arg_as_half mbind option_bind].
    rewrite Hc.
    cbn [mbind option_bind args_conf args_image_dir args_export_dir args_as_half].
    rewrite Hc. cbn [mbind option_bind]. by f_equal.
  - exists image_dir, export_dir, conf. split_and!; [done|done|by apply confs_get_Some|done|].
    intros p Hret. subst o. apply main_upto_Ok in Hret as (loader & _ & Hp & _).
    cbn in Hp. by injection Hp as <-.
Qed.

Lemma script_ignores_list_and_feature_path_witness :
  script example_env
    {| arg_image_dir := Some ["datasets"]; arg_export_dir := Some ["outputs"];
       arg_conf := None; arg_as_half := false;
       arg_image_list := Some ["list.txt"];
       arg_feature_path := Some ["elsewhere.h5"] |} empty_world =
  script example_env
    {| arg_image_dir := Some ["datasets"]; arg_export_dir := Some ["outputs"];
       arg_conf := None; arg_as_half := false;
       arg_image_list := None; arg_feature_path := None |} empty_world.
Proof.
  destruct (script_ignores_list_and_feature_path example_env
              {| arg_image_dir := Some ["datasets"]; arg_export_dir := Some ["outputs"];
                 arg_conf := None; arg_as_half := false;
                 arg_image_list := Some ["list.txt"];
                 arg_feature_path := Some ["elsewhere.h5"] |} empty_world _ eq_refl)
    as [H _].
  exact (eq_trans (H (Some ["list.txt"]) (Some ["elsewhere.h5"])) (eq_sym (H None None))).
Defined.

(** ** The dataset *)


(** An image is passed on at its own size when the configuration has no
    [resize_max], when [resize_max] is 0 (even with [resize_force]), and
    when its longer side is within [resize_max] and [resize_force] is
    off; the original size is (width, height) and the tensor is
    (channels, height, width), with one channel when grayscale. *)
Theorem unresized_image_is_passed_on E (self : ImageDataset) name img :
  read_image E (self_root self) name (grayscale (self_conf self)) = Ok img →
  (resize_max (self_conf self) = None ∨ resize_max (self_conf self) = Some 0 ∨
   ∃ r, resize_max (self_conf self) = Some r ∧ resize_force (self_conf self) = false ∧
        Z.max (width img) (height img) ≤ r) →
  load E self name =
    Ok {| data_name := name;
          data_image := (if grayscale (self_conf self) then 1 else 3, height img, width img);
          data_original_size := (width img, height img) |}.
Proof.
  intros Hread Hcase. unfold load. rewrite Hread. simpl.
  assert (Hres : resize (self_conf self) img = Ok img).
  { unfold resize, resize_condition.
    destruct Hcase as [->|[->|(r & -> & -> & Hr)]]; [done|done|].
    destruct (decide (r = 0)); [done|]. simpl.
    by rewrite bool_decide_eq_false_2 by lia. }
  rewrite Hres. simpl. by destruct (grayscale (self_conf self)).
Qed.

Lemma unresized_image_is_passed_on_witness :
  load example_env
    {| self_conf := SimpleNamespace (preprocessing_of (Some true) (Some (Some 1024)) None);
       self_root := example_root; self_names := ["a.jpg"; "b.png"] |} "a.jpg" =
  Ok {| data_name := "a.jpg"; data_image := (1, 50, 100); data_original_size := (100, 50) |}.
Proof.
  apply (unresized_image_is_passed_on example_env
           {| self_conf := SimpleNamespace (preprocessing_of (Some true) (Some (Some 1024)) None);
              self_root := example_root; self_names := ["a.jpg"; "b.png"] |} "a.jpg"
           {| height := 50; width := 100 |}).
  - reflexivity.
  - right. right. exists 1024. split; [reflexivity|]. split; [reflexivity|]. simpl. lia.
Defined.

(** ** The standard configurations *)

(** Two standard configurations never share their default feature file:
    under one export directory, each key of [confs] has its own file,
    directly in that directory. *)
Theorem standard_confs_have_their_own_file export_dir key1 conf1 key2 conf2 p :
  ((key1, conf1) ∈ confs) → ((key2, conf2) ∈ confs) →
  the_feature_path None (Some export_dir) conf1 = Ok p →
  the_feature_path None (Some export_dir) conf2 = Ok p →
  key1 = key2 ∧ parent p = export_dir.
Proof.
  intros H1 H2 [= <-] [= Hp]. split.
  - apply app_inv_head in Hp. unfold confs in H1, H2.
    repeat (apply elem_of_cons in H1 as [[= -> ->]|H1]);
      try (by apply elem_of_nil in H1);
      repeat (apply elem_of_cons in H2 as [[= -> ->]|H2]);
      try (by apply elem_of_nil in H2);
      first [reflexivity | vm_compute in Hp; discriminate Hp].
  - unfold parent. apply removelast_last.
Qed.

Lemma standard_confs_have_their_own_file_witness :
  parent ["outputs"; "feats-d2net-ss.h5"] = ["outputs"].
Proof.
  apply (standard_confs_have_their_own_file ["outputs"] "d2net-ss"
           {| output := "feats-d2net-ss";
              model := {| name := "d2net"; params := [("multiscale", PyBool false)] |};
              preprocessing := preprocessing_of (Some false) (Some (Some 1600)) None |}
           "d2net-ss"
           {| output := "feats-d2net-ss";
              model := {| name := "d2net"; params := [("multiscale", PyBool false)] |};
              preprocessing := preprocessing_of (Some false) (Some (Some 1600)) None |}
           ["outputs"; "feats-d2net-ss.h5"]).
  - unfold confs. do 3 apply list_elem_of_further. apply list_elem_of_here.
  - unfold confs. do 3 apply list_elem_of_further. apply list_elem_of_here.
  - reflexivity.
  - reflexivity.
Defined.

(** * Floating-point arithmetic of the resizing *)

(** ** Rounding in binary64 *)

Lemma digits2_pos_size p : digits2_pos p = Pos.size p.
Proof. induction p; simpl; congruence. Qed.

Lemma Zdigits2_bounds p :
  2 ^ (Zdigits2 (Zpos p) - 1) ≤ Zpos p < 2 ^ Zdigits2 (Zpos p).
Proof.
  simpl. rewrite digits2_pos_size. split.
  - pose proof (Pos.size_le p) as H.
    assert (H' : Z.pos (2 ^ Pos.size p) ≤ Z.pos p~0) by exact H.
    rewrite Pos2Z.inj_pow in H'.
    replace (Z.pos (Pos.size p)) with (Z.succ (Z.pos (Pos.size p) - 1)) in H' by lia.
    rewrite Z.pow_succ_r in H' by lia. lia.
  - pose proof (Pos.size_gt p) as H.
    assert (H' : Z.pos p < Z.pos (2 ^ Pos.size p)) by exact H.
    by rewrite Pos2Z.inj_pow in H'.
Qed.

Lemma Zdigits2_unique p d : 2 ^ (d - 1) ≤ Zpos p < 2 ^ d → Zdigits2 (Zpos p) = d.
Proof.
  intros [Hl Hu]. pose proof (Zdigits2_bounds p) as [Hl' Hu'].
  set (d' := Zdigits2 (Zpos p)) in *.
  assert (0 < d').
  { subst d'. simpl. lia. }
  assert (0 < d).
  { destruct (decide (0 < d)); [done|]. exfalso.
    destruct (decide (d = 0)) as [->|]; [simpl in Hu; lia|].
    rewrite Z.pow_neg_r in Hu by lia. lia. }
  destruct (Z.lt_trichotomy d d') as [Hlt|[Heq|Hgt]]; [|done|].
  - assert (2 ^ d ≤ 2 ^ (d' - 1)) by (apply Z.pow_le_mono_r; lia). lia.
  - assert (2 ^ d' ≤ 2 ^ (d - 1)) by (apply Z.pow_le_mono_r; lia). lia.
Qed.

Lemma shr_1_m mrs : 0 ≤ shr_m mrs → shr_m (shr_1 mrs) = shr_m mrs / 2.
Proof.
  destruct mrs as [m r s]. simpl. intros Hm.
  destruct m as [|[p|p|]|p]; simpl in *; try lia; try reflexivity.
  - apply (Z.div_unique _ _ _ 1); lia.
  - apply (Z.div_unique _ _ _ 0); lia.
Qed.

Lemma shr_1_nonneg mrs : 0 ≤ shr_m mrs → 0 ≤ shr_m (shr_1 mrs).
Proof. intros H. rewrite shr_1_m by done. apply Z.div_pos; lia. Qed.

Lemma iter_shr_m p : ∀ mrs, 0 ≤ shr_m mrs →
  shr_m (SpecFloat.iter_pos shr_1 p mrs) = shr_m mrs / 2 ^ Zpos p.
Proof.
  induction p as [p IH|p IH|]; intros mrs Hm; simpl SpecFloat.iter_pos.
  - assert (H1 := shr_1_nonneg _ Hm).
    assert (H2 : 0 ≤ shr_m (SpecFloat.iter_pos shr_1 p (shr_1 mrs))).
    { rewrite IH by done. apply Z.div_pos; lia. }
    rewrite IH, IH, shr_1_m by done.
    rewrite !Z.div_div by lia. f_equal.
    replace (Z.pos p~1) with (1 + Z.pos p + Z.pos p) by lia.
    rewrite !Z.pow_add_r by lia. rewrite Z.pow_1_r. ring.
  - assert (H2 : 0 ≤ shr_m (SpecFloat.iter_pos shr_1 p mrs)).
    { rewrite IH by done. apply Z.div_pos; lia. }
    rewrite IH, IH by done.
    rewrite !Z.div_div by lia. f_equal.
    replace (Z.pos p~0) with (Z.pos p + Z.pos p) by lia.
    rewrite !Z.pow_add_r by lia. ring.
  - by rewrite shr_1_m.
Qed.

Lemma shr_spec mrs e n :
  0 ≤ shr_m mrs →
  snd (shr mrs e n) = e + Z.max 0 n ∧
  shr_m (fst (shr mrs e n)) = shr_m mrs / 2 ^ Z.max 0 n.
Proof.
  intros Hm. destruct n as [|p|p]; simpl.
  - split; [lia|]. by rewrite Z.div_1_r.
  - split; [lia|]. by apply iter_shr_m.
  - split; [lia|]. by rewrite Z.div_1_r.
Qed.

Lemma shr_m_of_loc m l : shr_m (shr_record_of_loc m l) = m.
Proof. by destruct l as [|[]]. Qed.

Lemma shr_fexp_spec prec emax m e l :
  0 ≤ m →
  let e' := Z.max e (fexp prec emax (Zdigits2 m + e)) in
  snd (shr_fexp prec emax m e l) = e' ∧
  shr_m (fst (shr_fexp prec emax m e l)) = m / 2 ^ (e' - e).
Proof.
  intros Hm e'. unfold shr_fexp.
  destruct (shr_spec (shr_record_of_loc m l) e (fexp prec emax (Zdigits2 m + e) - e)) as [H1 H2].
  { by rewrite shr_m_of_loc. }
  rewrite H1, H2, shr_m_of_loc. split; [lia|]. do 2 f_equal. lia.
Qed.

Lemma round_nearest_even_bounds m l : m ≤ round_nearest_even m l ≤ m + 1.
Proof. destruct l as [|[]]; simpl; try lia. destruct (Z.even m); lia. Qed.

Lemma Zdigits2_unique_Z m d : 2 ^ (d - 1) ≤ m < 2 ^ d → 0 < m → Zdigits2 m = d.
Proof. intros H Hm. destruct m as [|p|p]; try lia. by apply Zdigits2_unique. Qed.

Lemma pow2_pos k : 0 ≤ k → 0 < 2 ^ k.
Proof. intros. apply Z.pow_pos_nonneg; lia. Qed.

Lemma div_pow2_bracket m k : 0 ≤ k → (m / 2 ^ k) * 2 ^ k ≤ m < (m / 2 ^ k + 1) * 2 ^ k.
Proof.
  intros Hk. pose proof (pow2_pos k Hk) as Hp.
  pose proof (Z.div_mod m (2 ^ k) ltac:(lia)) as Hdm.
  pose proof (Z.mod_pos_bound m (2 ^ k) Hp) as Hmod. nia.
Qed.

(** Rounding to binary64 of a mantissa of at least 53 bits, in the
    normal range: the result is a normal number within one unit in the
    last place. *)
Lemma binary_round_aux_bracket s p ex lx :
  let d := Zdigits2 (Zpos p) in
  53 ≤ d → -1074 ≤ d + ex - 53 → d + ex ≤ 1023 →
  ∃ m2 e2, binary_round_aux 53 1024 s (Zpos p) ex lx = S754_finite s m2 e2 ∧
    ex + (d - 53) ≤ e2 ≤ ex + (d - 53) + 1 ∧ 2 ^ 52 ≤ Zpos m2 < 2 ^ 53 ∧
    (Zpos m2 - 1) * 2 ^ (e2 - ex) ≤ Zpos p < (Zpos m2 + 1) * 2 ^ (e2 - ex).
Proof.
  intros d Hd Hlo Hhi. unfold binary_round_aux.
  pose proof (Zdigits2_bounds p) as Hp. fold d in Hp.
  destruct (shr_fexp_spec 53 1024 (Zpos p) ex lx ltac:(lia)) as [He' Hm0].
  destruct (shr_fexp 53 1024 (Z.pos p) ex lx) as [mrs' e']. cbn [fst snd] in He', Hm0.
  fold d in He', Hm0. clearbody d. unfold fexp, emin in He'.
  assert (He : e' = ex + (d - 53)) by lia. clear He'.
  replace (Z.max ex (fexp 53 1024 (d + ex)) - ex) with (d - 53) in Hm0
    by (unfold fexp, emin; lia).
  remember (d - 53) as k1 eqn:Hk1d.
  pose proof (pow2_pos k1 ltac:(lia)) as Hk1.
  pose proof (div_pow2_bracket (Zpos p) k1 ltac:(lia)) as Hbr.
  rewrite <- Hm0 in Hbr. remember (shr_m mrs') as m0 eqn:Hm0d.
  assert (Hm0b : 2 ^ 52 ≤ m0 < 2 ^ 53).
  { assert (H1 : 2 ^ (d - 1) = 2 ^ k1 * 2 ^ 52).
    { rewrite <- Z.pow_add_r by lia. f_equal. lia. }
    assert (H2 : 2 ^ d = 2 ^ k1 * 2 ^ 53).
    { rewrite <- Z.pow_add_r by lia. f_equal. lia. }
    rewrite H1, H2 in Hp. clear H1 H2. remember (2 ^ k1) as P eqn:HP in *.
    split.
    - destruct (decide (2 ^ 52 ≤ m0)) as [|Hn]; [done|]. exfalso.
      assert ((m0 + 1) * P ≤ 2 ^ 52 * P) by (apply Z.mul_le_mono_nonneg_r; lia). lia.
    - destruct (decide (m0 < 2 ^ 53)) as [|Hn]; [done|]. exfalso.
      assert (2 ^ 53 * P ≤ m0 * P) by (apply Z.mul_le_mono_nonneg_r; lia). lia. }
  pose proof (round_nearest_even_bounds m0 (loc_of_shr_record mrs')) as Hm1.
  remember (round_nearest_even m0 (loc_of_shr_record mrs')) as m1 eqn:Hm1d.
  destruct (shr_fexp_spec 53 1024 m1 e' loc_Exact ltac:(lia)) as [He'' Hm2].
  destruct (shr_fexp 53 1024 m1 e' loc_Exact) as [mrs'' e'']. cbn [fst snd] in He'', Hm2.
  destruct (decide (m1 < 2 ^ 53)) as [Hlt|Hge].
  - assert (Hdig : Zdigits2 m1 = 53) by (apply Zdigits2_unique_Z; simpl; lia).
    rewrite Hdig in He'', Hm2. unfold fexp, emin in He'', Hm2.
    assert (He2 : e'' = e') by lia. clear He''. subst e''.
    replace (Z.max e' (Z.max (53 + e' - 53) (3 - 1024 - 53)) - e') with 0 in Hm2 by lia.
    rewrite Z.pow_0_r, Z.div_1_r in Hm2. rewrite Hm2.
    destruct m1 as [|q|q]; try lia.
    rewrite (proj2 (Z.leb_le _ _)) by lia.
    exists q, e'. split; [done|]. split; [lia|]. split; [lia|].
    replace (e' - ex) with k1 by lia. nia.
  - assert (Hm1e : m1 = 2 ^ 53) by lia.
    assert (Hdig : Zdigits2 m1 = 54) by (rewrite Hm1e; reflexivity).
    rewrite Hdig in He'', Hm2. unfold fexp, emin in He'', Hm2.
    assert (He2 : e'' = e' + 1) by lia. clear He''. subst e''.
    replace (Z.max e' (Z.max (54 + e' - 53) (3 - 1024 - 53)) - e') with 1 in Hm2 by lia.
    rewrite Hm1e in Hm2. change (2 ^ 53 / 2 ^ 1) with (2 ^ 52) in Hm2. rewrite Hm2.
    change (2 ^ 52) with (Z.pos (2 ^ 52)%positive) at 1. cbv iota.
    rewrite (proj2 (Z.leb_le _ _)) by lia.
    exists (2 ^ 52)%positive, (e' + 1). split; [done|]. split; [lia|]. split; [done|].
    replace (e' + 1 - ex) with (k1 + 1) by lia. rewrite Z.pow_add_r by lia.
    change (Z.pos (2 ^ 52)%positive) with (2 ^ 52). change (2 ^ 1) with 2.
    assert (m0 = 2 ^ 53 - 1) by lia. nia.
Qed.

(** A mantissa of exactly 53 bits in the normal range is kept. *)
Lemma binary_round_aux_exact s p ex :
  Zdigits2 (Zpos p) = 53 → -1074 ≤ ex ≤ 971 →
  binary_round_aux 53 1024 s (Zpos p) ex loc_Exact = S754_finite s p ex.
Proof.
  intros Hd He. unfold binary_round_aux, shr_fexp. rewrite Hd.
  unfold fexp, emin.
  replace (Z.max (53 + ex - 53) (3 - 1024 - 53) - ex) with 0 by lia.
  cbn [shr shr_record_of_loc shr_m loc_of_shr_record round_nearest_even].
  rewrite Hd. replace (Z.max (53 + ex - 53) (3 - 1024 - 53) - ex) with 0 by lia.
  cbn [shr shr_record_of_loc shr_m]. by rewrite (proj2 (Z.leb_le _ _)) by lia.
Qed.

Lemma iter_xO p d : Zpos (Pos.iter xO p d) = Zpos p * 2 ^ Zpos d.
Proof.
  induction d as [|d IH] using Pos.peano_ind.
  - simpl. lia.
  - rewrite Pos.iter_succ, Pos2Z.inj_succ, Z.pow_succ_r by lia.
    rewrite Pos2Z.inj_xO, IH. ring.
Qed.

Lemma shl_align_spec p e e' :
  snd (shl_align p e e') = Z.min e e' ∧
  Zpos (fst (shl_align p e e')) = Zpos p * 2 ^ (e - Z.min e e').
Proof.
  unfold shl_align. destruct (e' - e) as [|d|d] eqn:Hd; cbn [fst snd].
  - split; [lia|]. replace (e - Z.min e e') with 0 by lia. lia.
  - split; [lia|]. replace (e - Z.min e e') with 0 by lia. lia.
  - split; [lia|]. rewrite iter_xO. do 2 f_equal. lia.
Qed.

(** Integers below [2^53] are binary64 numbers. *)
Lemma of_int_float64 z :
  0 < z < 2 ^ 53 →
  ∃ m e, binary_normalize 53 1024 z 0 false = S754_finite false m e ∧
    2 ^ 52 ≤ Zpos m < 2 ^ 53 ∧ -52 ≤ e ≤ 0 ∧ Zpos m = z * 2 ^ (- e).
Proof.
  intros Hz. destruct z as [|p|p]; try lia. unfold binary_normalize, binary_round.
  pose proof (Zdigits2_bounds p) as Hp. change (Zdigits2 (Zpos p)) with (Zpos (digits2_pos p)) in Hp.
  remember (Zpos (digits2_pos p)) as d eqn:Hdd.
  assert (Hd : 1 ≤ d ≤ 53).
  { split; [lia|]. destruct (decide (d ≤ 53)) as [|Hn]; [done|]. exfalso.
    assert (2 ^ 53 ≤ 2 ^ (d - 1)) by (apply Z.pow_le_mono_r; lia). lia. }
  destruct (shl_align_spec p 0 (fexp 53 1024 (d + 0))) as [He Hm].
  destruct (shl_align p 0 (fexp 53 1024 (d + 0))) as [mz ez]. cbn [fst snd] in He, Hm.
  unfold fexp, emin in He, Hm.
  assert (Hez : ez = d - 53) by lia. clear He.
  replace (0 - Z.min 0 (Z.max (d + 0 - 53) (3 - 1024 - 53))) with (53 - d) in Hm by lia.
  assert (Hmz : 2 ^ 52 ≤ Zpos mz < 2 ^ 53).
  { rewrite Hm.
    assert (H1 : 2 ^ 52 = 2 ^ (d - 1) * 2 ^ (53 - d)).
    { rewrite <- Z.pow_add_r by lia. f_equal. lia. }
    assert (H2 : 2 ^ 53 = 2 ^ d * 2 ^ (53 - d)).
    { rewrite <- Z.pow_add_r by lia. f_equal. lia. }
    rewrite H1, H2. pose proof (pow2_pos (53 - d) ltac:(lia)). split.
    - apply Z.mul_le_mono_nonneg_r; lia.
    - apply Z.mul_lt_mono_pos_r; lia. }
  rewrite binary_round_aux_exact; [|by apply Zdigits2_unique|lia].
  exists mz, ez. split; [done|]. split; [done|]. split; [lia|].
  rewrite Hm. do 2 f_equal. lia.
Qed.

(** Division of two normal binary64 numbers: the result is a normal
    number within one unit in the last place of the truncated quotient
    [q] of the mantissas. *)
Lemma SFdiv_bracket m1 e1 m2 e2 :
  2 ^ 52 ≤ Zpos m1 < 2 ^ 53 → 2 ^ 52 ≤ Zpos m2 < 2 ^ 53 → -1021 ≤ e1 - e2 ≤ 1021 →
  ∃ mz ez q,
    SFdiv 53 1024 (S754_finite false m1 e1) (S754_finite false m2 e2) =
      S754_finite false mz ez ∧
    2 ^ 52 ≤ Zpos mz < 2 ^ 53 ∧
    0 ≤ ez - (e1 - e2 - 53) ≤ 2 ∧
    (Zpos mz - 1) * 2 ^ (ez - (e1 - e2 - 53)) ≤ q <
      (Zpos mz + 1) * 2 ^ (ez - (e1 - e2 - 53)) ∧
    q * Zpos m2 ≤ Zpos m1 * 2 ^ 53 < (q + 1) * Zpos m2.
Proof.
  intros H1 H2 He. unfold SFdiv, SFdiv_core_binary.
  rewrite (Zdigits2_unique m1 53), (Zdigits2_unique m2 53) by (simpl; lia).
  unfold fexp, emin.
  replace (Z.min (Z.max (53 + e1 - (53 + e2) - 53) (3 - 1024 - 53)) (e1 - e2))
    with (e1 - e2 - 53) by lia.
  replace (e1 - e2 - (e1 - e2 - 53)) with 53 by lia. cbv iota.
  rewrite Z.shiftl_mul_pow2 by lia.
  pose proof (Z.div_mod (Zpos m1 * 2 ^ 53) (Zpos m2) ltac:(lia)) as Hdm.
  pose proof (Z.mod_pos_bound (Zpos m1 * 2 ^ 53) (Zpos m2) ltac:(lia)) as Hmod.
  unfold Z.div, Z.modulo in Hdm, Hmod.
  destruct (Z.div_eucl (Zpos m1 * 2 ^ 53) (Zpos m2)) as [q r].
  assert (Hq : 2 ^ 52 ≤ q < 2 ^ 54).
  { change (2 ^ 54) with (2 * 2 ^ 53). change (2 ^ 53) with (2 * 2 ^ 52) in *.
    remember (2 ^ 52) as T eqn:HT. assert (0 < T) by (subst T; done). nia. }
  destruct q as [|q|q]; try lia.
  assert (Hdq : 53 ≤ Zdigits2 (Zpos q) ≤ 54).
  { pose proof (Zdigits2_bounds q) as Hb. remember (Zdigits2 (Zpos q)) as d eqn:Hd.
    split.
    - destruct (decide (53 ≤ d)) as [|Hn]; [done|]. exfalso.
      assert (2 ^ d ≤ 2 ^ 52) by (apply Z.pow_le_mono_r; lia). lia.
    - destruct (decide (d ≤ 54)) as [|Hn]; [done|]. exfalso.
      assert (2 ^ 54 ≤ 2 ^ (d - 1)) by (apply Z.pow_le_mono_r; lia). lia. }
  destruct (binary_round_aux_bracket false q (e1 - e2 - 53) (new_location (Zpos m2) r))
    as (mz & ez & Hres & Hez & Hmz & Hbr); [lia..|].
  exists mz, ez, (Zpos q). split; [exact Hres|]. split; [done|]. split; [lia|].
  split; [done|]. lia.
Qed.

(** Multiplication of two normal binary64 numbers. *)
Lemma SFmul_bracket m1 e1 m2 e2 :
  2 ^ 52 ≤ Zpos m1 < 2 ^ 53 → 2 ^ 52 ≤ Zpos m2 < 2 ^ 53 → -1126 ≤ e1 + e2 ≤ 917 →
  ∃ mz ez,
    SFmul 53 1024 (S754_finite false m1 e1) (S754_finite false m2 e2) =
      S754_finite false mz ez ∧
    2 ^ 52 ≤ Zpos mz < 2 ^ 53 ∧
    52 ≤ ez - (e1 + e2) ≤ 54 ∧
    (Zpos mz - 1) * 2 ^ (ez - (e1 + e2)) ≤ Zpos m1 * Zpos m2 <
      (Zpos mz + 1) * 2 ^ (ez - (e1 + e2)).
Proof.
  intros H1 H2 He. unfold SFmul. cbn [xorb].
  assert (Hprod : 2 ^ 104 ≤ Zpos (m1 * m2) < 2 ^ 106).
  { rewrite Pos2Z.inj_mul. change (2 ^ 104) with (2 ^ 52 * 2 ^ 52).
    change (2 ^ 106) with (2 ^ 53 * 2 ^ 53).
    remember (2 ^ 52) as T eqn:HT. remember (2 ^ 53) as U eqn:HU.
    assert (0 < T) by (subst T; done). assert (0 < U) by (subst U; done). nia. }
  assert (Hdq : 105 ≤ Zdigits2 (Zpos (m1 * m2)) ≤ 106).
  { pose proof (Zdigits2_bounds (m1 * m2)) as Hb.
    remember (Zdigits2 (Zpos (m1 * m2))) as d eqn:Hd. split.
    - destruct (decide (105 ≤ d)) as [|Hn]; [done|]. exfalso.
      assert (2 ^ d ≤ 2 ^ 104) by (apply Z.pow_le_mono_r; lia). lia.
    - destruct (decide (d ≤ 106)) as [|Hn]; [done|]. exfalso.
      assert (2 ^ 106 ≤ 2 ^ (d - 1)) by (apply Z.pow_le_mono_r; lia). lia. }
  destruct (binary_round_aux_bracket false (m1 * m2) (e1 + e2) loc_Exact)
    as (mz & ez & Hres & Hez & Hmz & Hbr); [lia..|].
  exists mz, ez. split; [exact Hres|]. split; [done|]. split; [lia|].
  by rewrite <- Pos2Z.inj_mul.
Qed.

(** ** Errors in real numbers *)

Lemma bpow_add a b : bpow (a + b) = (bpow a * bpow b)%R.
Proof. unfold bpow. apply powerRZ_add. lra. Qed.

Lemma bpow_pos e : (0 < bpow e)%R.
Proof. unfold bpow. apply powerRZ_lt. lra. Qed.

Lemma IZR_pow2 k : 0 ≤ k → IZR (2 ^ k) = bpow k.
Proof.
  intros Hk. unfold bpow. rewrite <- (Z2Nat.id k) by done.
  rewrite <- pow_powerRZ, pow_IZR. done.
Qed.

Lemma bpow_0 : bpow 0 = 1%R.
Proof. reflexivity. Qed.

Lemma F2R_pos m e : 0 < m → (0 < F2R m e)%R.
Proof.
  intros Hm. unfold F2R. apply Rmult_lt_0_compat; [|apply bpow_pos]. by apply IZR_lt.
Qed.

(** Division in binary64, in real numbers: the relative error is at most
    [2^-52]. *)
Lemma SFdiv_error m1 e1 m2 e2 :
  2 ^ 52 ≤ Zpos m1 < 2 ^ 53 → 2 ^ 52 ≤ Zpos m2 < 2 ^ 53 → -1021 ≤ e1 - e2 ≤ 1021 →
  ∃ mz ez,
    SFdiv 53 1024 (S754_finite false m1 e1) (S754_finite false m2 e2) =
      S754_finite false mz ez ∧
    2 ^ 52 ≤ Zpos mz < 2 ^ 53 ∧
    e1 - e2 - 53 ≤ ez ≤ e1 - e2 - 51 ∧
    (Rabs (F2R (Zpos mz) ez * F2R (Zpos m2) e2 - F2R (Zpos m1) e1)
       <= F2R (Zpos mz) ez * F2R (Zpos m2) e2 / IZR (2 ^ 52))%R.
Proof.
  intros H1 H2 He.
  destruct (SFdiv_bracket m1 e1 m2 e2 H1 H2 He) as (mz & ez & q & Hres & Hmz & HK & Hq & Hqm).
  exists mz, ez. split; [done|]. split; [done|]. split; [lia|].
  remember (ez - (e1 - e2 - 53)) as K eqn:HKd.
  pose proof (pow2_pos K ltac:(lia)) as HpK. remember (2 ^ K) as P eqn:HP.
  assert (Hlo : (Zpos mz - 1) * P * Zpos m2 ≤ Zpos m1 * 2 ^ 53).
  { etransitivity; [|exact (proj1 Hqm)]. apply Z.mul_le_mono_nonneg_r; lia. }
  assert (Hhi : Zpos m1 * 2 ^ 53 ≤ (Zpos mz + 1) * P * Zpos m2).
  { etransitivity; [apply Z.lt_le_incl, (proj2 Hqm)|].
    apply Z.mul_le_mono_nonneg_r; lia. }
  apply IZR_le in Hlo, Hhi. rewrite !mult_IZR in Hlo, Hhi.
  rewrite minus_IZR in Hlo. rewrite plus_IZR in Hhi.
  assert (Ha : (IZR (2 ^ 52) <= IZR (Zpos mz))%R) by (apply IZR_le; lia).
  assert (Hc : (0 < IZR (Zpos m2))%R) by (by apply IZR_lt).
  assert (HPr : (0 < IZR P)%R) by (by apply IZR_lt).
  assert (HPb : IZR P = bpow K) by (subst P; apply IZR_pow2; lia).
  unfold F2R.
  replace ez with (K + (e1 - e2 - 53)) by lia.
  replace e1 with (53 + (e1 - e2 - 53) + e2) at 2 by lia.
  rewrite !bpow_add. rewrite <- HPb. rewrite <- (IZR_pow2 53) by lia.
  pose proof (bpow_pos (e1 - e2 - 53)) as HE. pose proof (bpow_pos e2) as HE2.
  remember (bpow (e1 - e2 - 53)) as bE. remember (bpow e2) as b2.
  remember (IZR (Zpos mz)) as a. remember (IZR (Zpos m2)) as c. remember (IZR (Zpos m1)) as b.
  remember (IZR P) as k. remember (IZR (2 ^ 53)) as p53.
  assert (HX : (0 < k * c * bE * b2)%R) by (repeat apply Rmult_lt_0_compat; done).
  remember (k * c * bE * b2)%R as X eqn:HXd.
  replace (a * (k * bE) * (c * b2))%R with (a * X)%R by (subst X; ring).
  replace (b * (p53 * bE * b2))%R with (b * p53 * (bE * b2))%R by ring.
  assert (HW1 : ((a - 1) * X <= b * p53 * (bE * b2))%R).
  { replace ((a - 1) * X)%R with ((a - 1) * k * c * (bE * b2))%R by (subst X; ring).
    apply Rmult_le_compat_r; [|done]. apply Rlt_le. by apply Rmult_lt_0_compat. }
  assert (HW2 : (b * p53 * (bE * b2) <= (a + 1) * X)%R).
  { replace ((a + 1) * X)%R with ((a + 1) * k * c * (bE * b2))%R by (subst X; ring).
    apply Rmult_le_compat_r; [|done]. apply Rlt_le. by apply Rmult_lt_0_compat. }
  assert (HaX : (IZR (2 ^ 52) * X <= a * X)%R).
  { apply Rmult_le_compat_r; [lra|done]. }
  remember (a * X)%R as Z0. remember (b * p53 * (bE * b2))%R as W.
  change (IZR (2 ^ 52)) with 4503599627370496%R in *.
  apply Rabs_le. lra.
Qed.

(** Multiplication in binary64, in real numbers. *)
Lemma SFmul_error m1 e1 m2 e2 :
  2 ^ 52 ≤ Zpos m1 < 2 ^ 53 → 2 ^ 52 ≤ Zpos m2 < 2 ^ 53 → -1126 ≤ e1 + e2 ≤ 917 →
  ∃ mz ez,
    SFmul 53 1024 (S754_finite false m1 e1) (S754_finite false m2 e2) =
      S754_finite false mz ez ∧
    2 ^ 52 ≤ Zpos mz < 2 ^ 53 ∧
    e1 + e2 + 52 ≤ ez ≤ e1 + e2 + 54 ∧
    (Rabs (F2R (Zpos mz) ez - F2R (Zpos m1) e1 * F2R (Zpos m2) e2)
       <= F2R (Zpos mz) ez / IZR (2 ^ 52))%R.
Proof.
  intros H1 H2 He.
  destruct (SFmul_bracket m1 e1 m2 e2 H1 H2 He) as (mz & ez & Hres & Hmz & HK & Hbr).
  exists mz, ez. split; [done|]. split; [done|]. split; [lia|].
  remember (ez - (e1 + e2)) as K eqn:HKd.
  pose proof (pow2_pos K ltac:(lia)) as HpK. remember (2 ^ K) as P eqn:HP.
  destruct Hbr as [Hlo Hhi]. apply Z.lt_le_incl in Hhi.
  apply IZR_le in Hlo, Hhi. rewrite !mult_IZR in Hlo, Hhi.
  rewrite minus_IZR in Hlo. rewrite plus_IZR in Hhi.
  assert (Ha : (IZR (2 ^ 52) <= IZR (Zpos mz))%R) by (apply IZR_le; lia).
  assert (HPr : (0 < IZR P)%R) by (by apply IZR_lt).
  assert (HPb : IZR P = bpow K) by (subst P; apply IZR_pow2; lia).
  unfold F2R.
  replace ez with (K + (e1 + e2)) by lia.
  rewrite !bpow_add. rewrite <- HPb.
  pose proof (bpow_pos e1) as HE1. pose proof (bpow_pos e2) as HE2.
  remember (bpow e1) as b1. remember (bpow e2) as b2.
  remember (IZR (Zpos mz)) as a. remember (IZR (Zpos m2)) as c. remember (IZR (Zpos m1)) as b.
  remember (IZR P) as k.
  assert (HX : (0 < k * (b1 * b2))%R) by (repeat apply Rmult_lt_0_compat; done).
  remember (k * (b1 * b2))%R as X eqn:HXd.
  replace (a * (k * (b1 * b2)))%R with (a * X)%R by (subst X; ring).
  replace (b * b1 * (c * b2))%R with (b * c * (b1 * b2))%R by ring.
  assert (HW1 : ((a - 1) * X <= b * c * (b1 * b2))%R).
  { replace ((a - 1) * X)%R with ((a - 1) * k * (b1 * b2))%R by (subst X; ring).
    apply Rmult_le_compat_r; [|done]. apply Rlt_le. by apply Rmult_lt_0_compat. }
  assert (HW2 : (b * c * (b1 * b2) <= (a + 1) * X)%R).
  { replace ((a + 1) * X)%R with ((a + 1) * k * (b1 * b2))%R by (subst X; ring).
    apply Rmult_le_compat_r; [|done]. apply Rlt_le. by apply Rmult_lt_0_compat. }
  assert (HaX : (IZR (2 ^ 52) * X <= a * X)%R).
  { apply Rmult_le_compat_r; [lra|done]. }
  remember (a * X)%R as Z0. remember (b * c * (b1 * b2))%R as W.
  change (IZR (2 ^ 52)) with 4503599627370496%R in *.
  apply Rabs_le. lra.
Qed.

Lemma F2R_exact z m e : 0 ≤ - e → Zpos m = z * 2 ^ (- e) → F2R (Zpos m) e = IZR z.
Proof.
  intros He ->. unfold F2R. rewrite mult_IZR, IZR_pow2 by done.
  rewrite Rmult_assoc, <- bpow_add. replace (- e + e) with 0 by lia.
  rewrite bpow_0. ring.
Qed.

Lemma Rabs_le_bounds x y : (Rabs x <= y)%R → (- y <= x <= y)%R.
Proof. unfold Rabs. destruct (Rcase_abs x); lra. Qed.

(** Python's [round] is within one half of its argument. *)
Lemma round_half_even_error m e :
  0 < m → (Rabs (IZR (round_half_even m e) - F2R m e) <= 1 / 2)%R.
Proof.
  intros Hm. unfold round_half_even, F2R. destruct (decide (0 ≤ e)) as [He|He].
  - rewrite mult_IZR, IZR_pow2 by done.
    replace (IZR m * bpow e - IZR m * bpow e)%R with 0%R by ring.
    rewrite Rabs_R0. lra.
  - pose proof (pow2_pos (- e) ltac:(lia)) as Hd. remember (2 ^ (- e)) as d eqn:Hdd.
    pose proof (Z.div_mod m d ltac:(lia)) as Hdm.
    pose proof (Z.mod_pos_bound m d Hd) as [Hr0 Hrd].
    remember (m `div` d) as q eqn:Hq. remember (m `mod` d) as rr eqn:Hrr.
    assert (HD : IZR d = bpow (- e)) by (subst d; apply IZR_pow2; lia).
    assert (HB : (bpow e * IZR d = 1)%R).
    { rewrite HD, <- bpow_add. replace (e + - e) with 0 by lia. apply bpow_0. }
    pose proof (bpow_pos e) as HBp. remember (bpow e) as Bp eqn:HBpd.
    assert (Hm' : (IZR m * Bp = IZR q + IZR rr * Bp)%R).
    { rewrite Hdm at 1. rewrite plus_IZR, mult_IZR.
      replace ((IZR d * IZR q + IZR rr) * Bp)%R with (IZR q * (Bp * IZR d) + IZR rr * Bp)%R
        by ring.
      rewrite HB. ring. }
    rewrite Hm'. remember (IZR rr * Bp)%R as rho eqn:Hrho.
    assert (Hrho0 : (0 <= rho)%R).
    { subst rho. apply Rmult_le_pos; [by apply IZR_le|lra]. }
    assert (Hscale : ∀ a : Z, (IZR a * Bp * IZR d = IZR a)%R).
    { intros a. rewrite Rmult_assoc, HB. ring. }
    assert (Hlt : ∀ a b : Z, a < b → (IZR a * Bp < IZR b * Bp)%R).
    { intros a b Hab. apply Rmult_lt_compat_r; [done|]. by apply IZR_lt. }
    assert (Hd1 : (IZR d * Bp = 1)%R) by (rewrite Rmult_comm; exact HB).
    assert (Hrho1 : (rho < 1)%R).
    { subst rho. rewrite <- Hd1. by apply Hlt. }
    destruct (2 * rr ?= d) eqn:Hcmp.
    + apply Z.compare_eq in Hcmp.
      assert (H2 : (2 * rho = 1)%R).
      { subst rho. rewrite <- Hd1, <- Hcmp, mult_IZR. ring. }
      destruct (Z.even q); [|rewrite plus_IZR]; apply Rabs_le; lra.
    + apply Z.compare_lt_iff in Hcmp.
      assert (H2 : (2 * rho < 1)%R).
      { subst rho. rewrite <- Hd1. apply Hlt in Hcmp. rewrite mult_IZR in Hcmp. lra. }
      apply Rabs_le; lra.
    + apply Z.compare_gt_iff in Hcmp.
      assert (H2 : (1 < 2 * rho)%R).
      { subst rho. rewrite <- Hd1. apply Hlt in Hcmp. rewrite mult_IZR in Hcmp. lra. }
      rewrite plus_IZR. apply Rabs_le; lra.
Qed.

(** One side of the resized image: [round(h * (r / M))] in binary64 is
    an integer nearest to the exact [h * r / M]. *)
Lemma scaled_side r M h :
  0 < r → 0 < h ≤ M → M * r ≤ 2 ^ 48 →
  ∃ n, py_round (int_mul_float h (fdiv float64 (of_int float64 r) (of_int float64 M))) = Ok n ∧
       Z.abs (2 * (n * M - h * r)) ≤ M.
Proof.
  intros Hr Hh HMr.
  assert (HrM : r ≤ 2 ^ 48 ∧ M ≤ 2 ^ 48) by nia.
  assert (Hhr : h * r ≤ 2 ^ 48) by nia.
  destruct (of_int_float64 r ltac:(lia)) as (mr & er & Hofr & Hmr & Her & Hvr).
  destruct (of_int_float64 M ltac:(lia)) as (mM & eM & HofM & HmM & HeM & HvM).
  destruct (of_int_float64 h ltac:(lia)) as (mh & eh & Hofh & Hmh & Heh & Hvh).
  unfold int_mul_float, fdiv, fmul, of_int, of_Z_exp, fprec, femax.
  rewrite Hofr, HofM, Hofh.
  destruct (SFdiv_error mr er mM eM Hmr HmM ltac:(lia)) as (ms & es & Hdiv & Hms & Hes & Hse).
  rewrite Hdiv.
  destruct (SFmul_error mh eh ms es Hmh Hms ltac:(lia)) as (mp & ep & Hmul & Hmp & Hep & Hpe).
  rewrite Hmul. cbn [py_round cond_Zopp]. eexists. split; [reflexivity|].
  pose proof (round_half_even_error (Zpos mp) ep ltac:(lia)) as Hn.
  remember (round_half_even (Zpos mp) ep) as n eqn:Hnd.
  rewrite (F2R_exact r mr er) in Hse by (done || lia).
  rewrite (F2R_exact M mM eM) in Hse by (done || lia).
  rewrite (F2R_exact h mh eh) in Hpe by (done || lia).
  pose proof (F2R_pos (Zpos ms) es ltac:(lia)) as Hs0.
  pose proof (F2R_pos (Zpos mp) ep ltac:(lia)) as Hy0.
  remember (F2R (Zpos ms) es) as s eqn:Hsd. remember (F2R (Zpos mp) ep) as y eqn:Hyd.
  assert (HM0 : (0 < IZR M)%R) by (apply IZR_lt; lia).
  assert (Hh0 : (0 < IZR h)%R) by (apply IZR_lt; lia).
  assert (HA : (IZR h * IZR r <= IZR (2 ^ 48))%R).
  { rewrite <- mult_IZR. by apply IZR_le. }
  assert (HA0 : (0 <= IZR h * IZR r)%R).
  { rewrite <- mult_IZR. apply IZR_le. nia. }
  change (IZR (2 ^ 48)) with 281474976710656%R in HA.
  change (IZR (2 ^ 52)) with 4503599627370496%R in Hse, Hpe.
  (* [S = s * M], [HS = h * s * M], [Y = y * M], [N = n * M] *)
  apply Rabs_le_bounds in Hse, Hpe, Hn.
  assert (HS1 : (IZR h * (s * IZR M) * (1 - / 4503599627370496) <= IZR h * IZR r)%R).
  { replace (IZR h * (s * IZR M) * (1 - / 4503599627370496))%R
      with (IZR h * (s * IZR M - s * IZR M / 4503599627370496))%R by (unfold Rdiv; ring).
    apply Rmult_le_compat_l; lra. }
  assert (HS2 : (IZR h * IZR r <= IZR h * (s * IZR M) * (1 + / 4503599627370496))%R).
  { replace (IZR h * (s * IZR M) * (1 + / 4503599627370496))%R
      with (IZR h * (s * IZR M + s * IZR M / 4503599627370496))%R by (unfold Rdiv; ring).
    apply Rmult_le_compat_l; lra. }
  assert (HY1 : (y * IZR M * (1 - / 4503599627370496) <= IZR h * (s * IZR M))%R).
  { replace (y * IZR M * (1 - / 4503599627370496))%R
      with ((y - y / 4503599627370496) * IZR M)%R by (unfold Rdiv; ring).
    replace (IZR h * (s * IZR M))%R with (IZR h * s * IZR M)%R by ring.
    apply Rmult_le_compat_r; lra. }
  assert (HY2 : (IZR h * (s * IZR M) <= y * IZR M * (1 + / 4503599627370496))%R).
  { replace (y * IZR M * (1 + / 4503599627370496))%R
      with ((y + y / 4503599627370496) * IZR M)%R by (unfold Rdiv; ring).
    replace (IZR h * (s * IZR M))%R with (IZR h * s * IZR M)%R by ring.
    apply Rmult_le_compat_r; lra. }
  assert (HN1 : (IZR n * IZR M - y * IZR M <= IZR M / 2)%R).
  { replace (IZR n * IZR M - y * IZR M)%R with ((IZR n - y) * IZR M)%R by ring.
    replace (IZR M / 2)%R with (1 / 2 * IZR M)%R by (unfold Rdiv; ring).
    apply Rmult_le_compat_r; lra. }
  assert (HN2 : (- (IZR M / 2) <= IZR n * IZR M - y * IZR M)%R).
  { replace (IZR n * IZR M - y * IZR M)%R with ((IZR n - y) * IZR M)%R by ring.
    replace (- (IZR M / 2))%R with (- (1 / 2) * IZR M)%R by (unfold Rdiv; ring).
    apply Rmult_le_compat_r; lra. }
  remember (IZR h * (s * IZR M))%R as HS. remember (y * IZR M)%R as Y.
  remember (IZR h * IZR r)%R as A. remember (IZR n * IZR M)%R as N.
  assert (Hfin : (- (IZR M + 1) < 2 * (N - A) < IZR M + 1)%R) by lra.
  subst N A. rewrite <- !mult_IZR, <- minus_IZR, <- (mult_IZR 2), <- (plus_IZR M 1) in Hfin.
  rewrite <- opp_IZR in Hfin. destruct Hfin as [Hf1 Hf2].
  apply lt_IZR in Hf1, Hf2. lia.
Qed.

(** ** The size of a resized image *)

Lemma new_size_sides r w h :
  0 < r → 0 < w → 0 < h → Z.max h w * r ≤ 2 ^ 48 →
  ∃ h_new w_new, new_size r w h = Ok (h_new, w_new) ∧
    Z.abs (2 * (h_new * Z.max h w - h * r)) ≤ Z.max h w ∧
    Z.abs (2 * (w_new * Z.max h w - w * r)) ≤ Z.max h w.
Proof.
  intros Hr Hw Hh HMr. unfold new_size, int_truediv.
  rewrite decide_False by lia. cbn [mbind result_bind].
  destruct (scaled_side r (Z.max h w) h Hr ltac:(lia) HMr) as (h_new & Hhn & Hhb).
  destruct (scaled_side r (Z.max h w) w Hr ltac:(lia) HMr) as (w_new & Hwn & Hwb).
  rewrite Hhn. cbn [mbind result_bind]. rewrite Hwn. cbn [mbind result_bind].
  by exists h_new, w_new.
Qed.

(** Lines 132-137, when the image is resampled: the longer side becomes
    exactly [resize_max], and each side is an integer nearest to its
    exact proportional size, so that the aspect ratio is kept up to
    rounding; the image must not be so thin that its shorter side would
    round to zero. *)
Theorem resized_image_size conf (img : image) r :
  resize_max conf = Some r → 0 < r →
  resize_condition conf (width img) (height img) = true →
  0 < width img → 0 < height img →
  Z.max (height img) (width img) * r ≤ 2 ^ 48 →
  Z.max (height img) (width img) < 2 * Z.min (height img) (width img) * r →
  ∃ img', resize conf img = Ok img' ∧
    Z.max (height img') (width img') = r ∧
    0 < Z.min (height img') (width img') ∧
    Z.abs (2 * (height img' * Z.max (height img) (width img) - height img * r))
      ≤ Z.max (height img) (width img) ∧
    Z.abs (2 * (width img' * Z.max (height img) (width img) - width img * r))
      ≤ Z.max (height img) (width img).
Proof.
  intros Hmax Hr Hcond Hw Hh HMr Hthin. unfold resize. rewrite Hmax, Hcond.
  destruct (new_size_sides r (width img) (height img) Hr Hw Hh HMr)
    as (h_new & w_new & Hns & Hhb & Hwb).
  rewrite Hns. cbn [mbind result_bind]. unfold cv2_resize.
  remember (Z.max (height img) (width img)) as M eqn:HM.
  assert (Hpos : 0 < w_new ∧ 0 < h_new) by nia.
  rewrite decide_True by done. eexists. split; [reflexivity|]. cbn [height width].
  split_and!; [|lia|done|done].
  destruct (Z.max_spec (height img) (width img)) as [[_ HMe]|[_ HMe]];
    rewrite <- HM in HMe; nia.
Qed.

(** An image so thin that its shorter side would be less than half a
    pixel cannot be resized: OpenCV rejects the empty target size. *)
Theorem thin_image_cannot_be_resized conf (img : image) r :
  resize_max conf = Some r → 0 < r →
  resize_condition conf (width img) (height img) = true →
  0 < width img → 0 < height img →
  Z.max (height img) (width img) * r ≤ 2 ^ 48 →
  2 * Z.min (height img) (width img) * r < Z.max (height img) (width img) →
  resize conf img = Raise cv2_error.
Proof.
  intros Hmax Hr Hcond Hw Hh HMr Hthin. unfold resize. rewrite Hmax, Hcond.
  destruct (new_size_sides r (width img) (height img) Hr Hw Hh HMr)
    as (h_new & w_new & Hns & Hhb & Hwb).
  rewrite Hns. cbn [mbind result_bind]. unfold cv2_resize.
  remember (Z.max (height img) (width img)) as M eqn:HM.
  rewrite decide_False; [done|]. intros [Hwn Hhn].
  destruct (Z.min_spec (height img) (width img)) as [[_ Hme]|[_ Hme]];
    rewrite Hme in Hthin; nia.
Qed.

(** Without [resize_force] an image is never enlarged: every side of the
    result is at most the side it comes from. *)
Theorem resize_never_enlarges conf (img img' : image) :
  resize_force conf = false →
  (∀ r, resize_max conf = Some r →
        0 ≤ r ∧ Z.max (height img) (width img) * r ≤ 2 ^ 48) →
  0 < width img → 0 < height img →
  resize conf img = Ok img' →
  height img' ≤ height img ∧ width img' ≤ width img.
Proof.
  intros Hforce Hrange Hw Hh. unfold resize.
  destruct (resize_max conf) as [r|] eqn:Hmax; [|intros [= <-]; lia].
  destruct (resize_condition conf (width img) (height img)) eqn:Hcond;
    [|intros [= <-]; lia].
  unfold resize_condition in Hcond. rewrite Hmax, Hforce in Hcond.
  destruct (decide (r = 0)) as [|Hr0]; [done|]. cbn [orb] in Hcond.
  apply bool_decide_eq_true in Hcond.
  destruct (Hrange r eq_refl) as [Hr HMr].
  destruct (new_size_sides r (width img) (height img) ltac:(lia) Hw Hh HMr)
    as (h_new & w_new & Hns & Hhb & Hwb).
  rewrite Hns. cbn [mbind result_bind]. unfold cv2_resize.
  destruct (decide (0 < w_new ∧ 0 < h_new)); [|done]. intros [= <-]. cbn [height width].
  remember (Z.max (height img) (width img)) as M eqn:HM.
  assert (HM' : M = Z.max (width img) (height img)) by lia. rewrite <- HM' in Hcond.
  split; nia.
Qed.

(** ** The scale of an image that was not resized *)

Lemma SFdiv_same m e :
  2 ^ 52 ≤ Zpos m < 2 ^ 53 →
  SFdiv 53 1024 (S754_finite false m e) (S754_finite false m e) =
    S754_finite false (2 ^ 52) (-52).
Proof.
  intros Hm. unfold SFdiv, SFdiv_core_binary.
  rewrite (Zdigits2_unique m 53) by (simpl; lia).
  unfold fexp, emin.
  replace (Z.min (Z.max (53 + e - (53 + e) - 53) (3 - 1024 - 53)) (e - e)) with (-53) by lia.
  replace (e - e - -53) with 53 by lia. cbv iota.
  rewrite Z.shiftl_mul_pow2 by lia.
  assert (Hq : (Zpos m * 2 ^ 53) `div` Zpos m = 2 ^ 53).
  { rewrite Z.mul_comm. apply Z.div_mul. lia. }
  assert (Hr : (Zpos m * 2 ^ 53) `mod` Zpos m = 0).
  { rewrite Z.mul_comm. apply Z.mod_mul. lia. }
  unfold Z.div, Z.modulo in Hq, Hr.
  destruct (Z.div_eucl (Zpos m * 2 ^ 53) (Zpos m)) as [q r]. subst q r.
  assert (Hloc : new_location (Zpos m) 0 = loc_Exact).
  { unfold new_location. by destruct (Z.even (Zpos m)). }
  rewrite Hloc. reflexivity.
Qed.

(** Lines 188-189 for an image that was not resized: both scale
    factors are exactly one. *)
Theorem scale_of_unresized x :
  0 < x < 2 ^ 53 → scale_of x x = of_int float32 1.
Proof.
  intros Hx. unfold scale_of, fdiv, of_int, of_Z_exp, fprec, femax.
  destruct (of_int_float64 x Hx) as (m & e & Hof & Hm & _ & _).
  rewrite Hof, SFdiv_same by done. reflexivity.
Qed.

Lemma resized_image_size_witness :
  ∃ img', resize (SimpleNamespace (preprocessing example_conf))
            {| height := 50; width := 100 |} = Ok img' ∧
          Z.max (height img') (width img') = 80.
Proof.
  destruct (resized_image_size (SimpleNamespace (preprocessing example_conf))
              {| height := 50; width := 100 |} 80) as (img' & H1 & H2 & _).
  - reflexivity.
  - lia.
  - reflexivity.
  - simpl. lia.
  - simpl. lia.
  - simpl. lia.
  - simpl. lia.
  - exists img'. split; assumption.
Defined.

Lemma thin_image_cannot_be_resized_witness :
  resize (SimpleNamespace (preprocessing example_conf)) {| height := 1; width := 1000 |} =
    Raise cv2_error.
Proof.
  apply (thin_image_cannot_be_resized (SimpleNamespace (preprocessing example_conf))
           {| height := 1; width := 1000 |} 80).
  - reflexivity.
  - lia.
  - reflexivity.
  - simpl. lia.
  - simpl. lia.
  - simpl. lia.
  - simpl. lia.
Defined.

Lemma resize_never_enlarges_witness :
  80 ≤ 100 ∧ 40 ≤ 50.
Proof.
  destruct (resize_never_enlarges (SimpleNamespace (preprocessing example_conf))
              {| height := 50; width := 100 |} {| height := 40; width := 80 |}) as [H1 H2].
  - reflexivity.
  - intros r [= <-]. simpl. lia.
  - simpl. lia.
  - simpl. lia.
  - vm_compute. reflexivity.
  - split; [exact H2|exact H1].
Defined.

Lemma scale_of_unresized_witness : scale_of 100 100 = of_int float32 1.
Proof. apply scale_of_unresized. lia. Defined.
